(** * Leaderboard: a sorted list of (gap, name) tuples with a name -> gap map

    Shallow embedding of [leaderboard_core.py] (class [Leaderboard]) and of
    [leaderboard_userdriven.py] (the menu entries and the loop of [main],
    with what they read as arguments and what they print as outcomes),
    together with the two functions of Python's [bisect] module that the
    class calls.

    Data model
    - a Python [float] is an IEEE 754 binary64 value: [spec_float] of the
      Standard Library, compared with [SFeqb] / [SFltb] / [SFleb]
      (a NaN is unordered and not equal to anything, +0.0 equals -0.0);
    - a Python [str] is a [string] holding its UTF-8 encoding: [==] and [<]
      on code points are [String.eqb] and [String.ltb] on the bytes (UTF-8
      keeps the order of the code points), and [len] counts the bytes that
      start a code point ([py_len]);
    - the list [self.drivers] is a [list (spec_float * string)];
    - the dict [self.driver_map] is a [gmap string spec_float];
    - an exception is a value of [exn] carried by [result].

    Floats are values here, not objects.  CPython compares the items of two
    tuples by identity before it compares them by [==]; the two ways give
    different answers only when one NaN object is met in two tuples of
    different names, which takes one NaN object stored under two names.
    Every statement below about a leaderboard that holds a NaN is either an
    evaluation in which that does not happen, or is restricted to
    leaderboards on which it cannot. *)

From Stdlib Require Import ZArith Lia String Ascii.
From Stdlib Require Import Floats.SpecFloat.
From stdpp Require Import base list gmap strings sorting.

Local Open Scope string_scope.
Local Open Scope list_scope.
Local Open Scope nat_scope.

(** ** Exceptions *)

Inductive exn : Type :=
  | IndexError.

Inductive result (A : Type) : Type :=
  | Ok (a : A)
  | Raise (e : exn).
Arguments Ok {A} a.
Arguments Raise {A} e.

#[global] Instance result_bind : MBind result :=
  λ A B k r, match r with
             | Ok a => k a
             | Raise e => Raise e
             end.

(** ** Scores and entries *)

Abbreviation float := spec_float.

Definition is_nan (f : float) : bool :=
  match f with
  | S754_nan => true
  | _ => false
  end.

Definition nan : float := S754_nan.

(** An element of [self.drivers]: the tuple [(gap, name)]. *)
Definition entry : Type := float * string.

(** Python's [<] on two 2-tuples: the first position whose items are not
    [==] decides with [<]; tuples equal at every position are not [<].
    Items are compared as values: this is CPython's answer whenever the two
    gaps are not one and the same NaN object under different names. *)
Definition tuple_lt (a b : entry) : bool :=
  if SFeqb a.1 b.1 then
    if String.eqb a.2 b.2 then false else String.ltb a.2 b.2
  else SFltb a.1 b.1.

(** Python's [<=] on two 2-tuples, on the same terms. *)
Definition tuple_le (a b : entry) : bool :=
  if SFeqb a.1 b.1 then
    if String.eqb a.2 b.2 then true else String.leb a.2 b.2
  else SFleb a.1 b.1.

(** ** The [bisect] module *)

Module bisect.

(** [while lo < hi: mid = (lo + hi) // 2;
     if a[mid] < x: lo = mid + 1 else: hi = mid].
    The loop runs at most [hi - lo] times; [fuel] bounds it.  [a[mid]] is
    always in range because [mid < hi <= len(a)]. *)
Fixpoint bisect_left_loop (fuel : nat) (a : list entry) (x : entry)
    (lo hi : nat) : nat :=
  match fuel with
  | O => lo
  | S fuel' =>
      if lo <? hi then
        let mid := (lo + hi) / 2 in
        match a !! mid with
        | Some am =>
            if tuple_lt am x then bisect_left_loop fuel' a x (mid + 1) hi
            else bisect_left_loop fuel' a x lo mid
        | None => lo
        end
      else lo
  end.

(** [bisect_left(a, x)] with the defaults [lo = 0], [hi = len(a)]. *)
Definition bisect_left (a : list entry) (x : entry) : nat :=
  bisect_left_loop (length a) a x 0 (length a).

(** [while lo < hi: mid = (lo + hi) // 2;
     if x < a[mid]: hi = mid else: lo = mid + 1]. *)
Fixpoint bisect_right_loop (fuel : nat) (a : list entry) (x : entry)
    (lo hi : nat) : nat :=
  match fuel with
  | O => lo
  | S fuel' =>
      if lo <? hi then
        let mid := (lo + hi) / 2 in
        match a !! mid with
        | Some am =>
            if tuple_lt x am then bisect_right_loop fuel' a x lo mid
            else bisect_right_loop fuel' a x (mid + 1) hi
        | None => lo
        end
      else lo
  end.

Definition bisect_right (a : list entry) (x : entry) : nat :=
  bisect_right_loop (length a) a x 0 (length a).

(** [list.insert(i, x)] for [i >= 0]: [x] goes before index [i], or at the
    end when [i >= len(a)]. *)
Definition list_insert_at (i : nat) (x : entry) (a : list entry) : list entry :=
  take i a ++ x :: drop i a.

(** [insort(a, x)]: [lo = bisect_right(a, x); a.insert(lo, x)]. *)
Definition insort (a : list entry) (x : entry) : list entry :=
  list_insert_at (bisect_right a x) x a.

End bisect.

(** [list.pop(i)] for [i >= 0]: raises [IndexError] when [i >= len(a)],
    otherwise removes the item at index [i]. *)
Definition list_pop (i : nat) (a : list entry) : result (list entry) :=
  if i <? length a then Ok (delete i a) else Raise IndexError.

(** [a[:k]]: a negative [k] counts from the end, and the bound is clamped
    to [0 .. len(a)]. *)
Definition slice_to {A : Type} (a : list A) (k : Z) : list A :=
  let n := Z.of_nat (length a) in
  let stop := if (k <? 0)%Z then Z.max (k + n) 0 else Z.min k n in
  take (Z.to_nat stop) a.

(** [enumerate(a)], counting from [i]. *)
Fixpoint enumerate_from {A : Type} (i : nat) (a : list A) : list (nat * A) :=
  match a with
  | [] => []
  | x :: a' => (i, x) :: enumerate_from (S i) a'
  end.

(** ** class Leaderboard *)

Record Leaderboard : Type := mkLeaderboard {
  drivers : list entry;
  driver_map : gmap string float
}.

(** [__init__] *)
Definition init : Leaderboard :=
  {| drivers := []; driver_map := ∅ |}.

(** [update(name, gap)].  The only statement that can raise is
    [self.drivers.pop(idx)], and it runs before anything is mutated. *)
Definition update (self : Leaderboard) (name : string) (gap : float)
    : result Leaderboard :=
  ds ← match driver_map self !! name with
       | Some old_gap =>
           let idx := bisect.bisect_left (drivers self) (old_gap, name) in
           list_pop idx (drivers self)
       | None => Ok (drivers self)
       end;
  Ok {| drivers := bisect.insort ds (gap, name);
        driver_map := <[name := gap]> (driver_map self) |}.

(** [get_rank(name)] *)
Definition get_rank (self : Leaderboard) (name : string) : option nat :=
  match driver_map self !! name with
  | None => None
  | Some gap =>
      let idx := bisect.bisect_left (drivers self) (gap, name) in
      Some (idx + 1)
  end.

(** [top_k(k)]: the loop appends [(i+1, name, gap)] to [result]. *)
Definition top_k (self : Leaderboard) (k : Z) : list (nat * string * float) :=
  foldl (λ result '(i, (gap, name)), result ++ [(i + 1, name, gap)])
        [] (enumerate_from 0 (slice_to (drivers self) k)).

(** ** The interactive shell: the parts that change the leaderboard *)

(** What [module_4_remove_driver] prints before it returns. *)
Inductive remove_outcome : Type :=
  | NoDrivers      (* "Warning: No drivers in the system!" *)
  | NotFound       (* "Error: Driver ... not found!" *)
  | Cancelled      (* "Removal cancelled." *)
  | Removed        (* "Success: Driver ... removed successfully!" *)
  | RemoveError.   (* "Error: Error removing driver" *)

(** The removal took place. *)
Definition removed (o : remove_outcome) : bool :=
  match o with
  | Removed => true
  | _ => false
  end.

(** [for i, (g, n) in enumerate(lb.drivers):
       if n == name and g == gap: idx = i; break]
    started at index [i]; [None] when the loop ends without [break]. *)
Fixpoint find_entry (name : string) (gap : float) (i : nat) (l : list entry)
    : option nat :=
  match l with
  | [] => None
  | (g, n) :: l' =>
      if String.eqb n name && SFeqb g gap then Some i
      else find_entry name gap (S i) l'
  end.

(** [module_4_remove_driver], with the two strings read from the console as
    arguments: [name] after [.upper().strip()], [confirm] after [.lower()].
    [pop(idx)] cannot raise here, [idx] being an index of the list. *)
Definition module_4_remove_driver (lb : Leaderboard) (name confirm : string)
    : Leaderboard * remove_outcome :=
  if decide (driver_map lb = ∅) then (lb, NoDrivers)
  else
    match driver_map lb !! name with
    | None => (lb, NotFound)
    | Some gap =>
        if negb (String.eqb confirm "y") then (lb, Cancelled)
        else
          match find_entry name gap 0 (drivers lb) with
          | Some idx =>
              ({| drivers := delete idx (drivers lb);
                  driver_map := delete name (driver_map lb) |}, Removed)
          | None => (lb, RemoveError)
          end
    end.

(** Menu choice 6: [lb.drivers.clear(); lb.driver_map.clear()] once the
    operator has answered [y]. *)
Definition clear_all (lb : Leaderboard) (confirm : string) : Leaderboard :=
  if String.eqb confirm "y" then init else lb.

(** One request of the shell to the leaderboard. *)
Inductive op : Type :=
  | OpUpdate (name : string) (gap : float)
  | OpRemove (name confirm : string)
  | OpClear (confirm : string).

Definition step (lb : Leaderboard) (o : op) : result Leaderboard :=
  match o with
  | OpUpdate name gap => update lb name gap
  | OpRemove name confirm => Ok (module_4_remove_driver lb name confirm).1
  | OpClear confirm => Ok (clear_all lb confirm)
  end.

(** The requests of [ops], in order, on [lb]; the first exception ends the
    run. *)
Fixpoint run (ops : list op) (lb : Leaderboard) : result Leaderboard :=
  match ops with
  | [] => Ok lb
  | o :: ops' => lb' ← step lb o; run ops' lb'
  end.

(** The score of a request is not a NaN (the precondition of an upsert). *)
Definition op_valid (o : op) : Prop :=
  match o with
  | OpUpdate _ gap => is_nan gap = false
  | _ => True
  end.

(** ** Invariants *)

Definition entry_le (a b : entry) : Prop := tuple_le a b = true.

(** The list is in non-decreasing [(gap, name)] order. *)
Definition sorted_inv (lb : Leaderboard) : Prop :=
  StronglySorted entry_le (drivers lb).

(** Every name occurs once in the list, and the map holds exactly the
    [(name, gap)] pairs of the list. *)
Definition map_inv (lb : Leaderboard) : Prop :=
  NoDup (drivers lb).*2 ∧
  ∀ n g, driver_map lb !! n = Some g ↔ (g, n) ∈ drivers lb.

(** No score in the list is a NaN. *)
Definition nonan_inv (lb : Leaderboard) : Prop :=
  Forall (λ e : entry, is_nan e.1 = false) (drivers lb).

Record Inv (lb : Leaderboard) : Prop := mkInv {
  inv_sorted : sorted_inv lb;
  inv_map : map_inv lb;
  inv_nonan : nonan_inv lb
}.

(** The number of entries of [l] that are strictly before [x]. *)
Definition count_before (x : entry) (l : list entry) : nat :=
  length (List.filter (λ e, tuple_lt e x) l).

(** ** The demo of [leaderboard_core.py] *)

(** The binary64 values of the literals [0.0], [11.850], [12.252], [14.777],
    [16.347] and [11.500]: mantissa and exponent of the nearest double. *)
Definition gap_0_000 : float := S754_zero false.
Definition gap_11_850 : float := S754_finite false 6670956948042547 (-49).
Definition gap_12_252 : float := S754_finite false 6897262829317915 (-49).
Definition gap_14_777 : float := S754_finite false 8318711461706727 (-49).
Definition gap_16_347 : float := S754_finite false 4601271444289094 (-48).
Definition gap_11_500 : float := S754_finite false 6473924464345088 (-49).

(** [f] is the double nearest to [thousandths / 1000]: a canonical binary64
    value less than half a unit in the last place away from it. *)
Definition nearest_double (thousandths : Z) (f : float) : Prop :=
  valid_binary 53 1024 f = true ∧
  match f with
  | S754_zero _ => thousandths = 0%Z
  | S754_finite false m e =>
      (e < 0 ∧ 2 * Z.abs (1000 * Z.pos m - thousandths * 2 ^ (- e)) < 1000)%Z
  | _ => False
  end.

(** [for name, gap in drivers: lb.update(name, gap)] *)
Definition demo_initial : list op :=
  [OpUpdate "LEC" gap_0_000; OpUpdate "SAI" gap_11_850;
   OpUpdate "VER" gap_12_252; OpUpdate "PER" gap_14_777;
   OpUpdate "BOT" gap_16_347].

(** The standings after the five updates. *)
Definition demo_board : Leaderboard :=
  {| drivers := [(gap_0_000, "LEC"); (gap_11_850, "SAI"); (gap_12_252, "VER");
                 (gap_14_777, "PER"); (gap_16_347, "BOT")];
     driver_map := <["BOT" := gap_16_347]> (<["PER" := gap_14_777]>
                   (<["VER" := gap_12_252]> (<["SAI" := gap_11_850]>
                   (<["LEC" := gap_0_000]> ∅)))) |}.

(** ** What the queries are expected to return *)

(** The entries of [l] as [(rank, name, gap)] triples, ranks from 1. *)
Definition ranked (l : list entry) : list (nat * string * float) :=
  imap (λ i e, (i + 1, e.2, e.1)) l.

(** ** Counting the work

    The loops of the source are counted by their iterations.  A Python list
    is an array: [insert(i, x)] first moves every item from index [i] on one
    slot up, and [pop(i)] moves every item after index [i] one slot down. *)

(** Iterations of the [while] loop of [bisect_left]. *)
Fixpoint bisect_left_iters (fuel : nat) (a : list entry) (x : entry)
    (lo hi : nat) : nat :=
  match fuel with
  | O => 0
  | S fuel' =>
      if lo <? hi then
        let mid := (lo + hi) / 2 in
        match a !! mid with
        | Some am =>
            if tuple_lt am x then S (bisect_left_iters fuel' a x (mid + 1) hi)
            else S (bisect_left_iters fuel' a x lo mid)
        | None => 0
        end
      else 0
  end.

(** Iterations of the [for] loop of [module_4_remove_driver]. *)
Fixpoint find_entry_iters (name : string) (gap : float) (l : list entry) : nat :=
  match l with
  | [] => 0
  | (g, n) :: l' =>
      if String.eqb n name && SFeqb g gap then 1
      else S (find_entry_iters name gap l')
  end.

(** Items moved by [a.insert(i, x)]. *)
Definition insert_moves (i : nat) (a : list entry) : nat := length (drop i a).

(** Items moved by [a.pop(i)]. *)
Definition pop_moves (i : nat) (a : list entry) : nat := length (drop (S i) a).

(** Items moved by [update(name, gap)]: those of the [pop], if there is
    one, and those of the [insert] inside [insort]. *)
Definition update_moves (self : Leaderboard) (name : string) (gap : float) : nat :=
  match driver_map self !! name with
  | Some old_gap =>
      let idx := bisect.bisect_left (drivers self) (old_gap, name) in
      let ds := delete idx (drivers self) in
      pop_moves idx (drivers self) +
      insert_moves (bisect.bisect_right ds (gap, name)) ds
  | None =>
      insert_moves (bisect.bisect_right (drivers self) (gap, name)) (drivers self)
  end.

(** ** The search loop, by the test it makes

    Both loops of [bisect] look for the end of the prefix of [a] whose items
    pass a test [p]: [bisect_left] with [p am = (am < x)], [bisect_right]
    with [p am = not (x < am)]. *)
Fixpoint partition_loop (p : entry → bool) (fuel : nat) (a : list entry)
    (lo hi : nat) : nat :=
  match fuel with
  | O => lo
  | S fuel' =>
      if lo <? hi then
        let mid := (lo + hi) / 2 in
        match a !! mid with
        | Some am =>
            if p am then partition_loop p fuel' a (mid + 1) hi
            else partition_loop p fuel' a lo mid
        | None => lo
        end
      else lo
  end.

(** ** The interactive shell: the other menu entries

    The console is not modelled: what a function reads becomes an argument
    (a driver code after [.upper().strip()], an answer after [.lower()], a
    gap as the result of [float(input(...))], [None] when it raises
    [ValueError]) and what it prints becomes an outcome.  [IndexError] is
    not caught by any of them. *)

(** A byte [10xxxxxx], which continues a code point in UTF-8. *)
Definition is_continuation (c : ascii) : bool :=
  (128 <=? nat_of_ascii c) && (nat_of_ascii c <? 192).

(** [len(s)]: the number of code points, one for each byte of the encoding
    that is not a continuation byte. *)
Fixpoint py_len (s : string) : nat :=
  match s with
  | EmptyString => 0
  | String c s' => (if is_continuation c then 0 else 1) + py_len s'
  end.

(** The [0] of [gap < 0]. *)
Definition zero : float := S754_zero false.

(** What [module_1_add_driver] prints last. *)
Inductive add_outcome : Type :=
  | BadCode        (* "Error: Driver code must be exactly 3 letters!" *)
  | Declined       (* the driver exists and the answer is not "y" *)
  | AddNegative    (* "Error: Gap time cannot be negative!" *)
  | AddInvalid     (* "Error: Invalid gap time! Please enter a number." *)
  | Added.         (* "Success: Driver ... added with gap: ..." *)

(** [module_1_add_driver] *)
Definition module_1_add_driver (lb : Leaderboard) (name choice : string)
    (gap : option float) : result (Leaderboard * add_outcome) :=
  if negb (py_len name =? 3) then Ok (lb, BadCode)
  else
    let declined :=
      match driver_map lb !! name with
      | Some _ => negb (String.eqb choice "y")
      | None => false
      end in
    if declined then Ok (lb, Declined)
    else
      match gap with
      | None => Ok (lb, AddInvalid)
      | Some gap =>
          if SFltb gap zero then Ok (lb, AddNegative)
          else lb' ← update lb name gap; Ok (lb', Added)
      end.

(** The line of [module_2_update_lap_time] about the position. *)
Inductive position : Type :=
  | MovedUp (old_rank new_rank : nat)   (* "... moved UP from P.. to P.." *)
  | Dropped (old_rank new_rank : nat)   (* "... dropped from P.. to P.." *)
  | Unchanged (new_rank : nat).         (* "Position unchanged: P.." *)

(** [if old_rank is not None and new_rank is not None: ...] *)
Definition position_change (old_rank new_rank : option nat) : option position :=
  match old_rank, new_rank with
  | Some o, Some n =>
      if negb (o =? n) then
        if n <? o then Some (MovedUp o n) else Some (Dropped o n)
      else Some (Unchanged n)
  | _, _ => None
  end.

(** What [module_2_update_lap_time] prints last. *)
Inductive update_outcome : Type :=
  | UpdNoDrivers   (* "Warning: No drivers in the system. Add drivers first!" *)
  | UpdNotFound    (* "Error: Driver ... not found!" *)
  | UpdNegative    (* "Error: Gap time cannot be negative!" *)
  | UpdInvalid     (* "Error: Invalid gap time! Please enter a number." *)
  | Updated (p : option position).

(** [module_2_update_lap_time] *)
Definition module_2_update_lap_time (lb : Leaderboard) (name : string)
    (gap : option float) : result (Leaderboard * update_outcome) :=
  if decide (driver_map lb = ∅) then Ok (lb, UpdNoDrivers)
  else
    match driver_map lb !! name with
    | None => Ok (lb, UpdNotFound)
    | Some _ =>
        match gap with
        | None => Ok (lb, UpdInvalid)
        | Some new_gap =>
            if SFltb new_gap zero then Ok (lb, UpdNegative)
            else
              let old_rank := get_rank lb name in
              lb' ← update lb name new_gap;
              let new_rank := get_rank lb' name in
              Ok (lb', Updated (position_change old_rank new_rank))
        end
    end.

(** The last column of a printed row: ["Leader"], the gap after a [+] as
    [Leaderboard.display] prints it, or the gap after a [+] and before an
    [s] as [module_3_display_leaderboard] prints it.  The digits of the gap
    (three decimals) and the widths of the columns are not modelled. *)
Inductive gap_str : Type :=
  | Leader
  | Plus (gap : float)       (* f"+{gap:.3f}" *)
  | PlusS (gap : float).     (* f"+{gap:.3f}s" *)

(** [Leaderboard.display]: the rows below the two header lines,
    [gap_str = "Leader" if i == 0 else ...]. *)
Definition display (self : Leaderboard) : list (nat * string * gap_str) :=
  (λ '(i, (gap, name)), (i + 1, name, if i =? 0 then Leader else Plus gap))
    <$> enumerate_from 0 (drivers self).

(** [module_3_display_leaderboard]: [None] for the warning that there are no
    drivers; otherwise the rows of [top_k(20)], with
    [gap_str = "Leader" if rank == 1 else ...], the number in the line
    ["... and N more drivers"] when there is one, and the total printed. *)
Definition module_3_display_leaderboard (lb : Leaderboard)
    : option (list (nat * string * gap_str) * option nat * nat) :=
  if decide (driver_map lb = ∅) then None
  else
    let top_20 := top_k lb 20 in
    let rows :=
      (λ '(rank, name, gap), (rank, name, if rank =? 1 then Leader else PlusS gap))
        <$> top_20 in
    let total_drivers := size (driver_map lb) in
    Some (rows,
          if 20 <? total_drivers then Some (total_drivers - 20) else None,
          total_drivers).

(** The binary64 values of [18.481], [18.332], [20.359], [20.155] and
    [20.570]. *)
Definition gap_18_481 : float := S754_finite false 5201939044589634 (-48).
Definition gap_18_332 : float := S754_finite false 5159999273059746 (-48).
Definition gap_20_359 : float := S754_finite false 5730549050852246 (-48).
Definition gap_20_155 : float := S754_finite false 5673128155603272 (-48).
Definition gap_20_570 : float := S754_finite false 5789940270938194 (-48).

Definition sample_drivers : list (string * float) :=
  [("LEC", gap_0_000); ("SAI", gap_11_850); ("VER", gap_12_252);
   ("PER", gap_14_777); ("BOT", gap_16_347); ("HAM", gap_18_481);
   ("GAS", gap_18_332); ("ALO", gap_20_359); ("NOR", gap_20_155);
   ("TSU", gap_20_570)].

(** [for name, gap in l: lb.update(name, gap)] *)
Fixpoint update_all (l : list (string * float)) (lb : Leaderboard)
    : result Leaderboard :=
  match l with
  | [] => Ok lb
  | (name, gap) :: l' => lb' ← update lb name gap; update_all l' lb'
  end.

(** [load_sample_data] *)
Definition load_sample_data (lb : Leaderboard) : result Leaderboard :=
  update_all sample_drivers lb.

(** What one turn of the loop of [main] reads: the menu choice after
    [.strip()], and whatever the chosen entry asks for. *)
Record console : Type := mkConsole {
  in_choice : string;
  in_name : string;
  in_answer : string;
  in_gap : option float
}.

(** One turn of the loop of [main]: the leaderboard after it, and whether
    the loop goes on. *)
Definition menu (lb : Leaderboard) (c : console) : result (Leaderboard * bool) :=
  if String.eqb (in_choice c) "1" then
    '(lb', _) ← module_1_add_driver lb (in_name c) (in_answer c) (in_gap c);
    Ok (lb', true)
  else if String.eqb (in_choice c) "2" then
    '(lb', _) ← module_2_update_lap_time lb (in_name c) (in_gap c);
    Ok (lb', true)
  else if String.eqb (in_choice c) "3" then Ok (lb, true)
  else if String.eqb (in_choice c) "4" then
    Ok ((module_4_remove_driver lb (in_name c) (in_answer c)).1, true)
  else if String.eqb (in_choice c) "5" then
    lb' ← load_sample_data lb; Ok (lb', true)
  else if String.eqb (in_choice c) "6" then
    Ok (clear_all lb (in_answer c), true)
  else if String.eqb (in_choice c) "0" then Ok (lb, false)
  else Ok (lb, true).

(** [main]: the turns of the loop, until choice 0 or the end of the input. *)
Fixpoint main (inputs : list console) (lb : Leaderboard) : result Leaderboard :=
  match inputs with
  | [] => Ok lb
  | c :: inputs' =>
      '(lb', again) ← menu lb c;
      if again : bool then main inputs' lb' else Ok lb'
  end.

(** Every entry has a code of three characters, as [len] counts them, and
    a gap that is not negative. *)
Definition shell_inv (lb : Leaderboard) : Prop :=
  Forall (λ e : entry, py_len e.2 = 3 ∧ SFltb e.1 zero = false)
         (drivers lb).

(** A score read from the console that is not a NaN. *)
Definition gap_ok (gap : option float) : Prop :=
  ∀ g, gap = Some g → is_nan g = false.

(** ** Keys for the order of the scores

    A score that is not a NaN is placed by a triple of integers compared
    lexicographically: the class (negative infinity, negative, zero,
    positive, positive infinity), then exponent and mantissa, both negated
    for a negative number. *)
Definition fkey (f : float) : Z * Z * Z :=
  match f with
  | S754_infinity true => (-2, 0, 0)
  | S754_finite true m e => (-1, - e, Z.neg m)
  | S754_zero _ => (0, 0, 0)
  | S754_nan => (0, 0, 0)
  | S754_finite false m e => (1, e, Z.pos m)
  | S754_infinity false => (2, 0, 0)
  end%Z.

Definition klt (x y : Z * Z * Z) : Prop :=
  (x.1.1 < y.1.1 ∨
   (x.1.1 = y.1.1 ∧ (x.1.2 < y.1.2 ∨ (x.1.2 = y.1.2 ∧ x.2 < y.2))))%Z.

(** * Properties *)

(** ** The order of the scores *)

Lemma SFcompare_nan_l b : SFcompare S754_nan b = None.
Proof. by destruct b. Qed.

Lemma SFcompare_nan_r a : SFcompare a S754_nan = None.
Proof. by destruct a as [| [] | | []]. Qed.

Lemma SFcompare_fkey a b :
  is_nan a = false → is_nan b = false →
  (SFcompare a b = Some Lt ∧ klt (fkey a) (fkey b)) ∨
  (SFcompare a b = Some Eq ∧ fkey a = fkey b) ∨
  (SFcompare a b = Some Gt ∧ klt (fkey b) (fkey a)).
Proof.
  intros Ha Hb.
  destruct a as [sa | sa | | sa ma ea], b as [sb | sb | | sb mb eb];
    try discriminate; try destruct sa; try destruct sb; cbn;
    unfold klt; cbn;
    try (left; split; [reflexivity | lia]);
    try (right; left; split; reflexivity);
    try (right; right; split; [reflexivity | lia]).
  - change (Pos.compare_cont Eq ma mb) with (Pos.compare ma mb).
    destruct (Z.compare_spec ea eb), (Pos.compare_spec ma mb); subst; cbn;
      first [ left; split; [reflexivity | lia]
            | right; left; split; reflexivity
            | right; right; split; [reflexivity | lia] ].
  - change (Pos.compare_cont Eq ma mb) with (Pos.compare ma mb).
    destruct (Z.compare_spec ea eb), (Pos.compare_spec ma mb); subst; cbn;
      first [ left; split; [reflexivity | lia]
            | right; left; split; reflexivity
            | right; right; split; [reflexivity | lia] ].
Qed.

Lemma klt_irrefl x : ¬ klt x x.
Proof. unfold klt. lia. Qed.

Lemma klt_trans x y z : klt x y → klt y z → klt x z.
Proof. unfold klt. lia. Qed.

Lemma klt_asym x y : klt x y → ¬ klt y x.
Proof. unfold klt. lia. Qed.

Lemma SFltb_iff a b :
  SFltb a b = true ↔
  is_nan a = false ∧ is_nan b = false ∧ klt (fkey a) (fkey b).
Proof.
  unfold SFltb. destruct (is_nan a) eqn:Ha.
  { destruct a; try discriminate. rewrite SFcompare_nan_l. naive_solver. }
  destruct (is_nan b) eqn:Hb.
  { destruct b; try discriminate. rewrite SFcompare_nan_r. naive_solver. }
  destruct (SFcompare_fkey a b Ha Hb) as [[-> H] | [[-> H] | [-> H]]].
  - naive_solver.
  - split; [done |]. intros (_ & _ & Hk). rewrite H in Hk.
    by apply klt_irrefl in Hk.
  - split; [done |]. intros (_ & _ & Hk). by apply klt_asym in Hk.
Qed.

Lemma SFeqb_iff a b :
  SFeqb a b = true ↔
  is_nan a = false ∧ is_nan b = false ∧ fkey a = fkey b.
Proof.
  unfold SFeqb. destruct (is_nan a) eqn:Ha.
  { destruct a; try discriminate. rewrite SFcompare_nan_l. naive_solver. }
  destruct (is_nan b) eqn:Hb.
  { destruct b; try discriminate. rewrite SFcompare_nan_r. naive_solver. }
  destruct (SFcompare_fkey a b Ha Hb) as [[-> H] | [[-> H] | [-> H]]].
  - split; [done |]. intros (_ & _ & Hk). rewrite Hk in H.
    by apply klt_irrefl in H.
  - naive_solver.
  - split; [done |]. intros (_ & _ & Hk). rewrite Hk in H.
    by apply klt_irrefl in H.
Qed.

Lemma SFleb_iff a b :
  SFleb a b = true ↔ SFltb a b = true ∨ SFeqb a b = true.
Proof.
  unfold SFleb, SFltb, SFeqb.
  destruct (SFcompare a b) as [[] |]; naive_solver.
Qed.

Lemma SFltb_total a b :
  is_nan a = false → is_nan b = false →
  SFltb a b = true ∨ SFeqb a b = true ∨ SFltb b a = true.
Proof.
  intros Ha Hb. rewrite !SFltb_iff, SFeqb_iff.
  destruct (SFcompare_fkey a b Ha Hb) as [[_ H] | [[_ H] | [_ H]]];
    naive_solver.
Qed.

(** ** The order of the names *)

Lemma ascii_compare_refl c : Ascii.compare c c = Eq.
Proof. unfold Ascii.compare. apply N.compare_refl. Qed.

Lemma ascii_compare_lt_trans a b c :
  Ascii.compare a b = Lt → Ascii.compare b c = Lt → Ascii.compare a c = Lt.
Proof.
  unfold Ascii.compare. rewrite !N.compare_lt_iff. apply N.lt_trans.
Qed.

Lemma string_compare_refl s : String.compare s s = Eq.
Proof. induction s as [| c s IH]; [done |]. cbn. by rewrite ascii_compare_refl. Qed.

Lemma string_compare_eq s t : String.compare s t = Eq ↔ s = t.
Proof.
  split; [apply String.compare_eq_iff |]. intros ->. apply string_compare_refl.
Qed.

Lemma string_compare_lt_trans s t u :
  String.compare s t = Lt → String.compare t u = Lt → String.compare s u = Lt.
Proof.
  revert t u. induction s as [| a s IH]; intros [| b t] [| c u]; cbn; try done.
  destruct (Ascii.compare a b) eqn:Hab; try done.
  - apply Ascii.compare_eq_iff in Hab as ->.
    destruct (Ascii.compare b c); try done. apply IH.
  - destruct (Ascii.compare b c) eqn:Hbc; try done.
    + apply Ascii.compare_eq_iff in Hbc as <-. by rewrite Hab.
    + by rewrite (ascii_compare_lt_trans _ _ _ Hab Hbc).
Qed.

Lemma string_compare_gt s t : String.compare s t = Gt ↔ String.compare t s = Lt.
Proof.
  rewrite (String.compare_antisym s t).
  destruct (String.compare t s); cbn; naive_solver.
Qed.

Lemma string_ltb_iff s t : String.ltb s t = true ↔ String.compare s t = Lt.
Proof. unfold String.ltb. destruct (String.compare s t); naive_solver. Qed.

Lemma string_leb_iff s t :
  String.leb s t = true ↔ String.compare s t = Lt ∨ s = t.
Proof.
  unfold String.leb. rewrite <- string_compare_eq.
  destruct (String.compare s t); naive_solver.
Qed.

Lemma string_lt_irrefl s : String.compare s s ≠ Lt.
Proof. by rewrite string_compare_refl. Qed.

Lemma string_lt_total s t :
  String.compare s t = Lt ∨ s = t ∨ String.compare t s = Lt.
Proof.
  destruct (String.compare s t) eqn:H.
  - right; left. by apply string_compare_eq.
  - by left.
  - right; right. by apply string_compare_gt.
Qed.

(** ** The order of the entries *)

Lemma tuple_lt_iff a b :
  tuple_lt a b = true ↔
  (SFeqb a.1 b.1 = true ∧ String.compare a.2 b.2 = Lt) ∨ SFltb a.1 b.1 = true.
Proof.
  unfold tuple_lt. destruct (SFeqb a.1 b.1) eqn:He.
  - assert (SFltb a.1 b.1 = false) as ->.
    { apply not_true_is_false. rewrite SFltb_iff. apply SFeqb_iff in He.
      intros (_ & _ & Hk). destruct He as (_ & _ & He). rewrite He in Hk.
      by apply klt_irrefl in Hk. }
    destruct (String.eqb_spec a.2 b.2) as [-> | Hne].
    + pose proof (string_lt_irrefl b.2). naive_solver.
    + rewrite string_ltb_iff. naive_solver.
  - naive_solver.
Qed.

Lemma tuple_le_iff a b :
  tuple_le a b = true ↔
  (SFeqb a.1 b.1 = true ∧ (String.compare a.2 b.2 = Lt ∨ a.2 = b.2)) ∨
  SFltb a.1 b.1 = true.
Proof.
  unfold tuple_le. destruct (SFeqb a.1 b.1) eqn:He.
  - assert (SFltb a.1 b.1 = false) as ->.
    { apply not_true_is_false. rewrite SFltb_iff. apply SFeqb_iff in He.
      intros (_ & _ & Hk). destruct He as (_ & _ & He). rewrite He in Hk.
      by apply klt_irrefl in Hk. }
    destruct (String.eqb_spec a.2 b.2) as [-> | Hne].
    + naive_solver.
    + rewrite string_leb_iff. naive_solver.
  - rewrite SFleb_iff, He. naive_solver.
Qed.

(** Both comparisons as statements about keys and names. *)
Ltac order_unfold :=
  repeat match goal with
    | H : tuple_lt _ _ = true |- _ => apply tuple_lt_iff in H
    | H : tuple_le _ _ = true |- _ => apply tuple_le_iff in H
    | H : tuple_lt _ _ = false |- _ =>
        apply not_true_iff_false in H; rewrite tuple_lt_iff in H
    | H : entry_le _ _ |- _ => apply tuple_le_iff in H
    | |- tuple_lt _ _ = true => apply tuple_lt_iff
    | |- tuple_le _ _ = true => apply tuple_le_iff
    | |- tuple_lt _ _ = false =>
        apply not_true_iff_false; rewrite tuple_lt_iff
    | |- entry_le _ _ => apply tuple_le_iff
    end;
  rewrite ?SFltb_iff, ?SFeqb_iff in *.

Lemma tuple_lt_irrefl a : tuple_lt a a = false.
Proof.
  order_unfold. pose proof (string_lt_irrefl a.2).
  pose proof (klt_irrefl (fkey a.1)). naive_solver.
Qed.

Lemma tuple_lt_le a b : tuple_lt a b = true → tuple_le a b = true.
Proof. intros H. order_unfold. naive_solver. Qed.

Lemma tuple_le_lt_trans a b c :
  tuple_le a b = true → tuple_lt b c = true → tuple_lt a c = true.
Proof.
  intros Hab Hbc. order_unfold.
  destruct Hab as [((? & ? & Hk1) & Hs1) | (? & ? & Hk1)],
           Hbc as [((? & ? & Hk2) & Hs2) | (? & ? & Hk2)].
  - left. split; [split_and!; congruence |].
    destruct Hs1 as [Hs1 | ->]; [| done].
    by eapply string_compare_lt_trans.
  - right. split_and!; [done .. |]. by rewrite Hk1.
  - right. split_and!; [done .. |]. by rewrite <- Hk2.
  - right. split_and!; [done .. |]. by eapply klt_trans.
Qed.

Lemma tuple_lt_le_trans a b c :
  tuple_lt a b = true → tuple_le b c = true → tuple_lt a c = true.
Proof.
  intros Hab Hbc. order_unfold.
  destruct Hab as [((? & ? & Hk1) & Hs1) | (? & ? & Hk1)],
           Hbc as [((? & ? & Hk2) & Hs2) | (? & ? & Hk2)].
  - left. split; [split_and!; congruence |].
    destruct Hs2 as [Hs2 | <-]; [| done].
    by eapply string_compare_lt_trans.
  - right. split_and!; [done .. |]. by rewrite Hk1.
  - right. split_and!; [done .. |]. by rewrite <- Hk2.
  - right. split_and!; [done .. |]. by eapply klt_trans.
Qed.

Lemma tuple_lt_asym a b : tuple_lt a b = true → tuple_lt b a = false.
Proof.
  intros Hab. destruct (tuple_lt b a) eqn:Hba; [| done].
  apply tuple_lt_le in Hba.
  pose proof (tuple_le_lt_trans _ _ _ Hba Hab) as H.
  by rewrite tuple_lt_irrefl in H.
Qed.

(** Two entries of different names that are in order are strictly so. *)
Lemma tuple_le_ne_lt a b :
  tuple_le a b = true → a.2 ≠ b.2 → tuple_lt a b = true.
Proof. intros H Hne. order_unfold. naive_solver. Qed.

(** Without a NaN the order is total. *)
Lemma tuple_lt_total a b :
  is_nan a.1 = false → is_nan b.1 = false →
  tuple_lt a b = false → tuple_le b a = true.
Proof.
  intros Ha Hb H. order_unfold.
  destruct (SFltb_total a.1 b.1 Ha Hb) as [Hl | [He | Hl]];
    rewrite ?SFltb_iff, ?SFeqb_iff in *.
  - naive_solver.
  - left. split; [naive_solver |].
    destruct (string_lt_total a.2 b.2) as [? | [? | ?]]; naive_solver.
  - by right.
Qed.

(** ** Binary search *)

Lemma bisect_left_loop_partition fuel a x lo hi :
  bisect.bisect_left_loop fuel a x lo hi =
  partition_loop (λ am, tuple_lt am x) fuel a lo hi.
Proof.
  revert lo hi. induction fuel as [| fuel IH]; intros lo hi; [done |].
  cbn [bisect.bisect_left_loop partition_loop].
  destruct (lo <? hi); [| done].
  destruct (a !! _) as [am |]; [| done].
  by rewrite !IH.
Qed.

Lemma bisect_right_loop_partition fuel a x lo hi :
  bisect.bisect_right_loop fuel a x lo hi =
  partition_loop (λ am, negb (tuple_lt x am)) fuel a lo hi.
Proof.
  revert lo hi. induction fuel as [| fuel IH]; intros lo hi; [done |].
  cbn [bisect.bisect_right_loop partition_loop].
  destruct (lo <? hi); [| done].
  destruct (a !! _) as [am |]; [| done].
  rewrite !IH. by destruct (tuple_lt x am).
Qed.

(** On a list that is a run of items passing [p] followed by a run of
    items failing it, the loop stops at the end of the first run, whenever
    the fuel covers the width of the window. *)
Lemma partition_loop_correct p l1 l2 fuel lo hi :
  Forall (λ e, p e = true) l1 →
  Forall (λ e, p e = false) l2 →
  lo ≤ length l1 → length l1 ≤ hi → hi ≤ length (l1 ++ l2) →
  hi - lo ≤ fuel →
  partition_loop p fuel (l1 ++ l2) lo hi = length l1.
Proof.
  intros H1 H2. revert lo hi.
  induction fuel as [| fuel IH]; intros lo hi Hlo Hhi Hlen Hfuel;
    cbn [partition_loop].
  { lia. }
  destruct (Nat.ltb_spec lo hi) as [Hlt | Hge]; [| lia].
  assert (lo ≤ (lo + hi) / 2 ∧ (lo + hi) / 2 < hi) as [Hm1 Hm2].
  { split; [apply Nat.div_le_lower_bound | apply Nat.Div0.div_lt_upper_bound]; lia. }
  destruct (decide ((lo + hi) / 2 < length l1)) as [Hin | Hout].
  - rewrite lookup_app_l by done.
    destruct (lookup_lt_is_Some_2 l1 _ Hin) as [am Ham]. rewrite Ham.
    rewrite (proj1 (Forall_lookup _ _) H1 _ _ Ham).
    apply IH; lia.
  - rewrite lookup_app_r by lia.
    assert ((lo + hi) / 2 - length l1 < length l2) as Hin.
    { rewrite length_app in Hlen. lia. }
    destruct (lookup_lt_is_Some_2 l2 _ Hin) as [am Ham]. rewrite Ham.
    rewrite (proj1 (Forall_lookup _ _) H2 _ _ Ham).
    apply IH; lia.
Qed.

(** The fuel never cuts a loop short: any amount that covers the width of
    the window gives the same index, on every list. *)
Lemma partition_loop_fuel p a f1 f2 lo hi :
  hi - lo ≤ f1 → hi - lo ≤ f2 →
  partition_loop p f1 a lo hi = partition_loop p f2 a lo hi.
Proof.
  revert f2 lo hi. induction f1 as [| f1 IH]; intros [| f2] lo hi H1 H2;
    cbn [partition_loop]; try done.
  - destruct (Nat.ltb_spec lo hi); [lia | done].
  - destruct (Nat.ltb_spec lo hi); [lia | done].
  - destruct (Nat.ltb_spec lo hi) as [Hlt |]; [| done].
    assert (lo ≤ (lo + hi) / 2 ∧ (lo + hi) / 2 < hi) as [Hm1 Hm2].
    { split; [apply Nat.div_le_lower_bound | apply Nat.Div0.div_lt_upper_bound]; lia. }
    destruct (a !! _) as [am |]; [| done].
    destruct (p am); apply IH; lia.
Qed.

Lemma bisect_left_fuel fuel a x :
  length a ≤ fuel →
  bisect.bisect_left_loop fuel a x 0 (length a) = bisect.bisect_left a x.
Proof.
  intros H. unfold bisect.bisect_left. rewrite !bisect_left_loop_partition.
  apply partition_loop_fuel; lia.
Qed.

Lemma bisect_right_fuel fuel a x :
  length a ≤ fuel →
  bisect.bisect_right_loop fuel a x 0 (length a) = bisect.bisect_right a x.
Proof.
  intros H. unfold bisect.bisect_right. rewrite !bisect_right_loop_partition.
  apply partition_loop_fuel; lia.
Qed.

(** A sorted list splits in this way for every test that is closed under
    going to a smaller entry. *)
Lemma sorted_partition (p : entry → bool) l :
  StronglySorted entry_le l →
  (∀ a b, entry_le a b → p b = true → p a = true) →
  ∃ l1 l2, l = l1 ++ l2 ∧
    Forall (λ e, p e = true) l1 ∧ Forall (λ e, p e = false) l2.
Proof.
  intros Hs Hp. induction Hs as [| a l Hs IH Ha].
  { by exists [], []. }
  destruct (p a) eqn:Hpa.
  - destruct IH as (l1 & l2 & -> & H1 & H2).
    exists (a :: l1), l2. split_and!; [done | by constructor | done].
  - exists [], (a :: l). split_and!; [done | done |].
    constructor; [done |]. rewrite Forall_forall in Ha |- *.
    intros b Hb. apply not_true_is_false. intros Hpb.
    rewrite (Hp a b (Ha _ Hb) Hpb) in Hpa. done.
Qed.

Lemma filter_partition (p : entry → bool) l1 l2 :
  Forall (λ e, p e = true) l1 → Forall (λ e, p e = false) l2 →
  List.filter p (l1 ++ l2) = l1.
Proof.
  intros H1 H2. rewrite List.filter_app.
  assert (List.filter p l1 = l1) as ->.
  { induction H1 as [| a l1 Ha _ IH]; [done |]. cbn. by rewrite Ha, IH. }
  assert (List.filter p l2 = []) as ->.
  { induction H2 as [| a l2 Ha _ IH]; [done |]. cbn. by rewrite Ha. }
  by rewrite app_nil_r.
Qed.

(** [bisect_left] on a split list. *)
Lemma bisect_left_split l1 l2 x :
  Forall (λ e, tuple_lt e x = true) l1 →
  Forall (λ e, tuple_lt e x = false) l2 →
  bisect.bisect_left (l1 ++ l2) x = length l1.
Proof.
  intros H1 H2. unfold bisect.bisect_left.
  rewrite bisect_left_loop_partition.
  apply (partition_loop_correct (λ am, tuple_lt am x)); try done;
    rewrite ?length_app; lia.
Qed.

(** [bisect_right] on a split list. *)
Lemma bisect_right_split l1 l2 x :
  Forall (λ e, tuple_lt x e = false) l1 →
  Forall (λ e, tuple_lt x e = true) l2 →
  bisect.bisect_right (l1 ++ l2) x = length l1.
Proof.
  intros H1 H2. unfold bisect.bisect_right.
  rewrite bisect_right_loop_partition.
  apply (partition_loop_correct (λ am, negb (tuple_lt x am)));
    rewrite ?length_app; try lia.
  - eapply Forall_impl; [exact H1 |]. cbn. by intros ? ->.
  - eapply Forall_impl; [exact H2 |]. cbn. by intros ? ->.
Qed.

(** On a sorted list [bisect_left] counts the entries strictly before [x]. *)
Lemma bisect_left_count l x :
  StronglySorted entry_le l → bisect.bisect_left l x = count_before x l.
Proof.
  intros Hs.
  destruct (sorted_partition (λ e, tuple_lt e x) l Hs) as (l1 & l2 & -> & H1 & H2).
  { intros a b Hab Hb. by eapply tuple_le_lt_trans. }
  rewrite bisect_left_split by done.
  unfold count_before. by rewrite filter_partition.
Qed.

(** An entry inserted at the index [bisect_right] gives. *)
Lemma insort_split l1 l2 x :
  Forall (λ e, tuple_lt x e = false) l1 →
  Forall (λ e, tuple_lt x e = true) l2 →
  bisect.insort (l1 ++ l2) x = l1 ++ x :: l2.
Proof.
  intros H1 H2. unfold bisect.insort, bisect.list_insert_at.
  rewrite bisect_right_split by done.
  by rewrite take_app_length, drop_app_length.
Qed.

Lemma insort_sorted_split l x :
  StronglySorted entry_le l →
  ∃ l1 l2, l = l1 ++ l2 ∧ bisect.insort l x = l1 ++ x :: l2 ∧
    Forall (λ e, tuple_lt x e = false) l1 ∧
    Forall (λ e, tuple_lt x e = true) l2.
Proof.
  intros Hs.
  destruct (sorted_partition (λ e, negb (tuple_lt x e)) l Hs)
    as (l1 & l2 & -> & H1 & H2).
  { intros a b Hab Hb. apply negb_true_iff in Hb. apply negb_true_iff.
    apply not_true_is_false. intros Ha.
    by rewrite (tuple_lt_le_trans _ _ _ Ha Hab) in Hb. }
  assert (Forall (λ e, tuple_lt x e = false) l1) as H1'.
  { eapply Forall_impl; [exact H1 |]. cbn. intros e. by rewrite negb_true_iff. }
  assert (Forall (λ e, tuple_lt x e = true) l2) as H2'.
  { eapply Forall_impl; [exact H2 |]. cbn. intros e. by rewrite negb_false_iff. }
  exists l1, l2. split_and!; try done. by apply insort_split.
Qed.

Lemma insort_Permutation l x :
  StronglySorted entry_le l → bisect.insort l x ≡ₚ x :: l.
Proof.
  intros Hs. destruct (insort_sorted_split l x Hs) as (l1 & l2 & -> & -> & _).
  by rewrite Permutation_middle.
Qed.

(** [insort] keeps a list without NaN sorted. *)
Lemma insort_sorted l x :
  StronglySorted entry_le l →
  Forall (λ e : entry, is_nan e.1 = false) l → is_nan x.1 = false →
  StronglySorted entry_le (bisect.insort l x).
Proof.
  intros Hs Hn Hx.
  destruct (insort_sorted_split l x Hs) as (l1 & l2 & -> & -> & H1 & H2).
  apply StronglySorted_app in Hs as (H12 & Hs1 & Hs2).
  apply Forall_app in Hn as [Hn1 Hn2].
  rewrite Forall_forall in H1, H2, Hn1.
  apply StronglySorted_app_2; [| done |].
  - intros a b Ha Hb. apply elem_of_cons in Hb as [-> | Hb]; [| by apply H12].
    apply tuple_lt_total; auto.
  - apply StronglySorted_cons. split; [| done].
    apply Forall_forall. intros b Hb. by apply tuple_lt_le, H2.
Qed.

(** ** One entry of a sorted list with distinct names *)

Lemma sorted_split_at l1 x l2 :
  StronglySorted entry_le (l1 ++ x :: l2) →
  NoDup (l1 ++ x :: l2).*2 →
  Forall (λ e, tuple_lt e x = true) l1 ∧
  Forall (λ e, tuple_lt x e = true) l2 ∧
  x.2 ∉ (l1 ++ l2).*2.
Proof.
  intros Hs Hnd.
  rewrite fmap_app, fmap_cons in Hnd.
  apply NoDup_app in Hnd as (Hnd1 & Hnd12 & Hnd2).
  apply NoDup_cons in Hnd2 as [Hx2 Hnd2].
  apply StronglySorted_app in Hs as (H12 & Hs1 & Hs2).
  apply StronglySorted_cons in Hs2 as [Hx Hs2].
  rewrite Forall_forall in Hx.
  split_and!.
  - apply Forall_forall. intros a Ha. apply tuple_le_ne_lt.
    + apply H12; [done | left].
    + intros Heq. apply (Hnd12 a.2).
      * by apply list_elem_of_fmap_2.
      * rewrite Heq. left.
  - apply Forall_forall. intros b Hb. apply tuple_le_ne_lt; [by apply Hx |].
    intros Heq. apply Hx2. rewrite Heq. by apply list_elem_of_fmap_2.
  - rewrite fmap_app, elem_of_app. intros [H | H]; [| done].
    apply (Hnd12 _ H). left.
Qed.

Lemma bisect_left_at l1 x l2 :
  StronglySorted entry_le (l1 ++ x :: l2) →
  NoDup (l1 ++ x :: l2).*2 →
  bisect.bisect_left (l1 ++ x :: l2) x = length l1.
Proof.
  intros Hs Hnd. destruct (sorted_split_at _ _ _ Hs Hnd) as (H1 & H2 & _).
  apply bisect_left_split; [done |].
  constructor; [apply tuple_lt_irrefl |].
  eapply Forall_impl; [exact H2 |]. cbn. intros b. apply tuple_lt_asym.
Qed.

Lemma insort_at l1 x l2 :
  StronglySorted entry_le (l1 ++ x :: l2) →
  NoDup (l1 ++ x :: l2).*2 →
  bisect.insort (l1 ++ l2) x = l1 ++ x :: l2.
Proof.
  intros Hs Hnd. destruct (sorted_split_at _ _ _ Hs Hnd) as (H1 & H2 & _).
  apply insort_split; [| done].
  eapply Forall_impl; [exact H1 |]. cbn. intros b. apply tuple_lt_asym.
Qed.

Lemma list_pop_middle l1 x l2 :
  list_pop (length l1) (l1 ++ x :: l2) = Ok (l1 ++ l2).
Proof.
  unfold list_pop. rewrite delete_middle.
  destruct (Nat.ltb_spec (length l1) (length (l1 ++ x :: l2))) as [| H]; [done |].
  rewrite length_app in H. cbn in H. lia.
Qed.

(** ** [update] on a state that satisfies the invariants *)

(** The list once the old entry of [name], if any, is popped. *)
Lemma update_pop lb name :
  sorted_inv lb → map_inv lb →
  ∃ ds,
    (∀ gap, update lb name gap =
       Ok {| drivers := bisect.insort ds (gap, name);
             driver_map := <[name := gap]> (driver_map lb) |}) ∧
    match driver_map lb !! name with
    | Some old => ∃ l1 l2, drivers lb = l1 ++ (old, name) :: l2 ∧ ds = l1 ++ l2
    | None => ds = drivers lb
    end ∧
    StronglySorted entry_le ds ∧
    NoDup (ds.*2) ∧ name ∉ (ds.*2) ∧
    (∀ e, e ∈ ds → e ∈ drivers lb) ∧
    (∀ n g, n ≠ name → (driver_map lb !! n = Some g ↔ (g, n) ∈ ds)).
Proof.
  intros Hs [Hnd Hm]. unfold update.
  destruct (driver_map lb !! name) as [old |] eqn:Hold.
  - apply Hm in Hold as Hin.
    apply list_elem_of_split in Hin as (l1 & l2 & Hl).
    unfold sorted_inv in Hs. rewrite Hl in Hs, Hnd.
    destruct (sorted_split_at _ _ _ Hs Hnd) as (_ & _ & Hname).
    exists (l1 ++ l2). split_and!.
    + intros gap. rewrite Hl, bisect_left_at, list_pop_middle by done. done.
    + by exists l1, l2.
    + apply StronglySorted_app in Hs as (H12 & Hs1 & Hs2).
      apply StronglySorted_cons in Hs2 as [_ Hs2].
      apply StronglySorted_app_2; [| done..].
      intros a b Ha Hb. apply H12; [done | by right].
    + rewrite fmap_app, fmap_cons in Hnd. rewrite fmap_app.
      apply NoDup_app in Hnd as (Hnd1 & Hnd12 & Hnd2).
      apply NoDup_cons in Hnd2 as [_ Hnd2].
      apply NoDup_app. split_and!; [done | | done].
      intros n Hn1 Hn2. apply (Hnd12 n Hn1). by right.
    + done.
    + intros e. rewrite Hl, !elem_of_app, elem_of_cons. naive_solver.
    + intros n g Hne. rewrite Hm, Hl, !elem_of_app, elem_of_cons.
      naive_solver.
  - exists (drivers lb). split_and!; try done.
    + intros Hin. apply list_elem_of_fmap in Hin as ([g n] & -> & Hin).
      apply Hm in Hin. cbn in *. congruence.
Qed.

(** [update] with a score that is not a NaN returns normally and keeps the
    invariants. *)
Lemma update_Inv lb name gap :
  Inv lb → is_nan gap = false →
  ∃ lb', update lb name gap = Ok lb' ∧ Inv lb'.
Proof.
  intros [Hs Hm Hn] Hgap.
  destruct (update_pop lb name Hs Hm) as (ds & Hup & _ & Hds & Hnd & Hname & Hsub & Hlook).
  eexists. split; [apply Hup |].
  assert (Forall (λ e : entry, is_nan e.1 = false) ds) as Hnds.
  { unfold nonan_inv in Hn. rewrite Forall_forall in Hn |- *. auto. }
  pose proof (insort_Permutation ds (gap, name) Hds) as Hperm.
  split.
  - unfold sorted_inv; cbn. by apply insort_sorted.
  - split; cbn.
    + rewrite Hperm. cbn. by apply NoDup_cons.
    + intros n g. rewrite Hperm, elem_of_cons.
      destruct (decide (n = name)) as [-> | Hne].
      * rewrite lookup_insert_eq. split.
        -- intros [= ->]. by left.
        -- intros [[= ->] | Hin]; [done |].
           exfalso. apply Hname. by apply (list_elem_of_fmap_2 snd) in Hin.
      * rewrite lookup_insert_ne by done. rewrite Hlook by done.
        naive_solver.
  - unfold nonan_inv; cbn. rewrite Hperm. by constructor.
Qed.

(** ** Removal of a driver *)

Lemma find_entry_at name gap i l1 l2 :
  name ∉ l1.*2 → is_nan gap = false →
  find_entry name gap i (l1 ++ (gap, name) :: l2) = Some (i + length l1).
Proof.
  intros Hname Hgap. revert i.
  induction l1 as [| [g n] l1 IH]; intros i; cbn.
  - rewrite String.eqb_refl. cbn.
    assert (SFeqb gap gap = true) as -> by (by apply SFeqb_iff).
    f_equal. lia.
  - rewrite fmap_cons, not_elem_of_cons in Hname. destruct Hname as [Hne Hname].
    cbn in Hne. destruct (String.eqb_spec n name) as [-> | _]; [done |].
    cbn. rewrite IH by done. f_equal. lia.
Qed.

(** A confirmed removal of a driver that is present. *)
Lemma remove_present lb name gap :
  map_inv lb → nonan_inv lb → driver_map lb !! name = Some gap →
  ∃ l1 l2, drivers lb = l1 ++ (gap, name) :: l2 ∧
    name ∉ (l1 ++ l2).*2 ∧
    module_4_remove_driver lb name "y" =
      ({| drivers := l1 ++ l2; driver_map := delete name (driver_map lb) |},
       Removed).
Proof.
  intros [Hnd Hm] Hn Hgap.
  apply Hm in Hgap as Hin.
  apply list_elem_of_split in Hin as (l1 & l2 & Hl).
  rewrite Hl, fmap_app, fmap_cons in Hnd.
  apply NoDup_app in Hnd as (Hnd1 & Hnd12 & Hnd2).
  apply NoDup_cons in Hnd2 as [Hx2 Hnd2].
  assert (name ∉ l1.*2) as Hl1.
  { intros H. apply (Hnd12 _ H). left. }
  exists l1, l2. split_and!; [done | |].
  { rewrite fmap_app, elem_of_app. naive_solver. }
  unfold module_4_remove_driver.
  destruct (decide (driver_map lb = ∅)) as [He | _].
  { rewrite He, lookup_empty in Hgap. done. }
  rewrite Hgap. cbn [String.eqb negb].
  change (String.eqb "y" "y") with true. cbn [negb].
  unfold nonan_inv in Hn. rewrite Hl in Hn.
  apply Forall_app in Hn as [_ Hn]. apply Forall_cons in Hn as [Hg _].
  rewrite Hl, find_entry_at by done.
  by rewrite Nat.add_0_l, delete_middle.
Qed.

(** [module_4_remove_driver] keeps the invariants, whatever it prints. *)
Lemma remove_Inv lb name confirm :
  Inv lb → Inv (module_4_remove_driver lb name confirm).1.
Proof.
  intros HI. pose proof HI as [Hs Hm Hn].
  unfold module_4_remove_driver.
  destruct (decide _) as [| _]; [done |].
  destruct (driver_map lb !! name) as [gap |] eqn:Hgap; [| done].
  destruct (String.eqb_spec confirm "y") as [-> | _]; [| done].
  destruct (remove_present lb name gap Hm Hn Hgap) as (l1 & l2 & Hl & Hname & Heq).
  unfold module_4_remove_driver in Heq.
  destruct (decide _) as [| _]; [done |].
  rewrite Hgap in Heq. cbn [negb] in *.
  change (String.eqb "y" "y") with true in Heq. cbn [negb] in Heq.
  destruct (find_entry _ _ _ _) as [idx |]; [| done].
  injection Heq as Heq. cbn. rewrite Heq.
  destruct Hm as [Hnd Hm]. unfold sorted_inv, nonan_inv in *.
  rewrite Hl in Hs, Hnd, Hn.
  split; cbn.
  - apply StronglySorted_app in Hs as (H12 & Hs1 & Hs2).
    apply StronglySorted_cons in Hs2 as [_ Hs2].
    apply StronglySorted_app_2; [| done..].
    intros a b Ha Hb. apply H12; [done | by right].
  - split; cbn.
    + rewrite fmap_app, fmap_cons in Hnd. rewrite fmap_app.
      apply NoDup_app in Hnd as (Hnd1 & Hnd12 & Hnd2).
      apply NoDup_cons in Hnd2 as [_ Hnd2].
      apply NoDup_app. split_and!; [done | | done].
      intros n Hn1 Hn2. apply (Hnd12 n Hn1). by right.
    + intros n g. destruct (decide (n = name)) as [-> | Hne].
      * rewrite lookup_delete_eq. split; [done |]. intros Hin.
        exfalso. apply Hname. by apply (list_elem_of_fmap_2 snd) in Hin.
      * rewrite lookup_delete_ne by done. rewrite Hm, Hl.
        rewrite !elem_of_app, elem_of_cons. naive_solver.
  - unfold nonan_inv. cbn.
    apply Forall_app in Hn as [Hn1 Hn2]. apply Forall_cons in Hn2 as [_ Hn2].
    by apply Forall_app.
Qed.

Lemma init_Inv : Inv init.
Proof.
  split.
  - constructor.
  - split; [constructor |]. intros n g. cbn.
    rewrite lookup_empty, elem_of_nil. naive_solver.
  - constructor.
Qed.

(** A run of valid requests never raises and keeps the invariants. *)
Lemma run_Inv ops lb :
  Forall op_valid ops → Inv lb →
  ∃ lb', run ops lb = Ok lb' ∧ Inv lb'.
Proof.
  intros Hv. revert lb.
  induction Hv as [| o ops Ho _ IH]; intros lb HI; cbn.
  { by exists lb. }
  destruct o as [name gap | name confirm | confirm]; cbn.
  - destruct (update_Inv lb name gap HI Ho) as (lb' & -> & HI'). cbn.
    by apply IH.
  - apply IH. by apply remove_Inv.
  - apply IH. unfold clear_all. destruct (String.eqb _ _); [apply init_Inv | done].
Qed.

(** ** The demo board *)

Lemma demo_initial_run : run demo_initial init = Ok demo_board.
Proof. vm_compute. reflexivity. Qed.

Lemma demo_board_Inv : Inv demo_board.
Proof.
  destruct (run_Inv demo_initial init) as (lb & Hrun & HI).
  - repeat constructor.
  - apply init_Inv.
  - rewrite demo_initial_run in Hrun. by injection Hrun as ->.
Qed.

Lemma demo_literals :
  nearest_double 0 gap_0_000 ∧ nearest_double 11850 gap_11_850 ∧
  nearest_double 12252 gap_12_252 ∧ nearest_double 14777 gap_14_777 ∧
  nearest_double 16347 gap_16_347 ∧ nearest_double 11500 gap_11_500.
Proof. repeat split; vm_compute; congruence. Qed.

(** ** Rank *)

(** C1. On a sorted list consistent with the map, [get_rank] of a name that
    is present is 1 plus the number of entries strictly before the entry of
    that name; [get_rank] of a name that is absent is [None]. *)
Theorem get_rank_correct lb K :
  sorted_inv lb → map_inv lb →
  (∀ gap, (gap, K) ∈ drivers lb →
     get_rank lb K = Some (1 + count_before (gap, K) (drivers lb))) ∧
  (K ∉ (drivers lb).*2 → get_rank lb K = None).
Proof.
  intros Hs [Hnd Hm]. unfold get_rank. split.
  - intros gap Hin. apply Hm in Hin. rewrite Hin.
    rewrite bisect_left_count by done. f_equal. lia.
  - intros Hout. destruct (driver_map lb !! K) as [gap |] eqn:Hgap; [| done].
    exfalso. apply Hout. apply Hm in Hgap.
    by apply (list_elem_of_fmap_2 snd) in Hgap.
Qed.

Lemma get_rank_correct_witness :
  sorted_inv demo_board ∧ map_inv demo_board ∧
  get_rank demo_board "VER" = Some 3 ∧ get_rank demo_board "HAM" = None.
Proof.
  pose proof demo_board_Inv as [Hs Hm _].
  split; [exact Hs |]. split; [exact Hm |].
  split.
  - destruct (get_rank_correct demo_board "VER" Hs Hm) as [H _].
    apply (H gap_12_252). vm_compute. do 2 right. left.
  - destruct (get_rank_correct demo_board "HAM" Hs Hm) as [_ H].
    apply H. vm_compute.
    intros Hin. repeat (apply elem_of_cons in Hin as [Hin | Hin]; [discriminate |]).
    by apply elem_of_nil in Hin.
Defined.

(** ** Top k *)

Lemma top_k_loop (l : list entry) i acc :
  foldl (λ result '(j, (gap, name)), result ++ [(j + 1, name, gap)])
        acc (enumerate_from i l) =
  acc ++ imap (λ j e, (i + j + 1, e.2, e.1)) l.
Proof.
  revert i acc. induction l as [| [gap name] l IH]; intros i acc; cbn.
  { by rewrite app_nil_r. }
  rewrite IH, <- app_assoc. cbn. rewrite Nat.add_0_r. do 2 f_equal.
  apply imap_ext. intros j e _. cbn. do 2 f_equal. lia.
Qed.

Lemma top_k_ranked lb k : top_k lb k = ranked (slice_to (drivers lb) k).
Proof. unfold top_k. by rewrite top_k_loop. Qed.

Lemma ranked_entries l : (λ t : nat * string * float, (t.2, t.1.2)) <$> ranked l = l.
Proof.
  unfold ranked.
  induction l as [| [g n] l IH] using rev_ind; [done |].
  rewrite imap_app, fmap_app, IH. done.
Qed.

Lemma ranked_ranks l : (λ t : nat * string * float, t.1.1) <$> ranked l = seq 1 (length l).
Proof.
  unfold ranked.
  induction l as [| e l IH] using rev_ind; [done |].
  rewrite imap_app, fmap_app, IH, length_app, seq_app. cbn.
  by rewrite Nat.add_0_r, Nat.add_1_r.
Qed.

(** C2. For [0 <= k <= size], [top_k(k)] is the first [k] entries of the
    list, in order, as [(rank, name, gap)] triples with ranks [1 .. k]; for
    [k] greater than the size it is all the entries, and nothing is raised. *)
Theorem top_k_prefix lb k :
  (0 ≤ k)%Z →
  top_k lb k = ranked (take (Z.to_nat k) (drivers lb)) ∧
  (λ t : nat * string * float, (t.2, t.1.2)) <$> top_k lb k
    = take (Z.to_nat k) (drivers lb) ∧
  ((k ≤ Z.of_nat (length (drivers lb)))%Z →
     (λ t : nat * string * float, t.1.1) <$> top_k lb k = seq 1 (Z.to_nat k)) ∧
  ((Z.of_nat (length (drivers lb)) < k)%Z → top_k lb k = ranked (drivers lb)).
Proof.
  intros Hk.
  assert (top_k lb k = ranked (take (Z.to_nat k) (drivers lb))) as Htop.
  { rewrite top_k_ranked. unfold slice_to.
    destruct (Z.ltb_spec k 0) as [| _]; [lia |].
    destruct (Z.min_spec k (Z.of_nat (length (drivers lb)))) as [[_ ->] | [Hle ->]]; [done |].
    rewrite Nat2Z.id. by rewrite !take_ge by lia. }
  split_and!.
  - done.
  - by rewrite Htop, ranked_entries.
  - intros Hle. rewrite Htop, ranked_ranks, length_take. f_equal. lia.
  - intros Hlt. rewrite Htop. by rewrite take_ge by lia.
Qed.

Lemma top_k_prefix_witness :
  (0 ≤ 2)%Z ∧
  top_k demo_board 2 = [(1, "LEC", gap_0_000); (2, "SAI", gap_11_850)].
Proof.
  split; [lia |].
  destruct (top_k_prefix demo_board 2) as [H _]; [lia |].
  rewrite H. reflexivity.
Defined.

(** C10. For a negative [k], [top_k(k)] raises nothing and is the first
    [max(0, n - |k|)] entries of the list, with ranks from 1. *)
Theorem top_k_negative lb k :
  (k < 0)%Z →
  top_k lb k =
  ranked (take (length (drivers lb) - Z.to_nat (- k)) (drivers lb)).
Proof.
  intros Hk. rewrite top_k_ranked. unfold slice_to.
  destruct (Z.ltb_spec k 0) as [_ |]; [| lia].
  do 2 f_equal. lia.
Qed.

Lemma top_k_negative_witness :
  (-2 < 0)%Z ∧
  top_k demo_board (-2) =
  [(1, "LEC", gap_0_000); (2, "SAI", gap_11_850); (3, "VER", gap_12_252)].
Proof.
  split; [lia |].
  rewrite (top_k_negative demo_board (-2)) by lia. reflexivity.
Defined.

(** ** Invariants along a run *)

(** As long as no score is a NaN the order is kept: after every sequence
    of updates with scores that are not NaN, removals and clears from the
    empty leaderboard, nothing has been raised and the list is in
    non-decreasing [(gap, name)] order, every entry [<=] every later one,
    in particular the next one. *)
Theorem run_sorted ops :
  Forall op_valid ops →
  ∃ lb, run ops init = Ok lb ∧
    StronglySorted entry_le (drivers lb) ∧ Sorted entry_le (drivers lb).
Proof.
  intros Hv. destruct (run_Inv ops init Hv init_Inv) as (lb & Hrun & [Hs _ _]).
  exists lb. split_and!; [done | done |]. by apply StronglySorted_Sorted.
Qed.

Lemma run_sorted_witness :
  Forall op_valid (demo_initial ++ [OpUpdate "VER" gap_11_500]) ∧
  ∃ lb, run (demo_initial ++ [OpUpdate "VER" gap_11_500]) init = Ok lb ∧
    StronglySorted entry_le (drivers lb) ∧ Sorted entry_le (drivers lb).
Proof.
  assert (Forall op_valid (demo_initial ++ [OpUpdate "VER" gap_11_500])) as Hv.
  { repeat constructor. }
  split; [exact Hv |]. exact (run_sorted _ Hv).
Defined.

(** C3, on the code.  The list is not kept sorted once [update] is given a
    NaN, which it stores without a check: the three calls
    [update("B", 11.5)], [update("A", nan)], [update("C", 0.0)] on the empty
    leaderboard return normally and leave the entry of 0.0 two places after
    the entry of 11.5, a list that is not sorted. *)
Lemma run_nan_out_of_order :
  ∃ lb,
    run [OpUpdate "B" gap_11_500; OpUpdate "A" nan; OpUpdate "C" gap_0_000]
        init = Ok lb ∧
    drivers lb = [(gap_11_500, "B"); (nan, "A"); (gap_0_000, "C")] ∧
    tuple_lt (gap_0_000, "C") (gap_11_500, "B") = true ∧
    ¬ Sorted entry_le (drivers lb) ∧
    ¬ StronglySorted entry_le (drivers lb).
Proof.
  eexists. split; [vm_compute; reflexivity |]. cbn [drivers].
  split_and!; [done | done | |].
  - intros Hs. apply Sorted_inv in Hs as [_ Hhd].
    apply HdRel_inv in Hhd. discriminate.
  - intros Hs. apply StronglySorted_inv in Hs as [_ Hall].
    apply Forall_inv in Hall. discriminate.
Qed.

(** As long as no score is a NaN the map and the list agree: after every
    such sequence the names of the map are the names of the list, every
    name occurs once in the list, and the score next to a name in the list
    is the score of that name in the map. *)
Theorem run_bijection ops :
  Forall op_valid ops →
  ∃ lb, run ops init = Ok lb ∧
    dom (driver_map lb) =@{gset string} list_to_set (drivers lb).*2 ∧
    NoDup (drivers lb).*2 ∧
    (∀ g n, (g, n) ∈ drivers lb → driver_map lb !! n = Some g) ∧
    (∀ g n, driver_map lb !! n = Some g → (g, n) ∈ drivers lb).
Proof.
  intros Hv.
  destruct (run_Inv ops init Hv init_Inv) as (lb & Hrun & [_ [Hnd Hm] _]).
  exists lb. split_and!; [done | | done | |].
  - apply set_eq. intros n. rewrite elem_of_dom, elem_of_list_to_set.
    rewrite list_elem_of_fmap. split.
    + intros [g Hg]. exists (g, n). split; [done |]. by apply Hm.
    + intros ([g n'] & -> & Hin). exists g. by apply Hm.
  - intros g n. apply Hm.
  - intros g n. apply Hm.
Qed.

Lemma run_bijection_witness :
  Forall op_valid (demo_initial ++ [OpRemove "SAI" "y"]) ∧
  ∃ lb, run (demo_initial ++ [OpRemove "SAI" "y"]) init = Ok lb ∧
    dom (driver_map lb) =@{gset string} list_to_set (drivers lb).*2 ∧
    NoDup (drivers lb).*2 ∧
    (∀ g n, (g, n) ∈ drivers lb → driver_map lb !! n = Some g) ∧
    (∀ g n, driver_map lb !! n = Some g → (g, n) ∈ drivers lb).
Proof.
  assert (Forall op_valid (demo_initial ++ [OpRemove "SAI" "y"])) as Hv.
  { repeat constructor. }
  split; [exact Hv |]. exact (run_bijection _ Hv).
Defined.

(** C4, on the code.  The map and the list do not stay in agreement once
    a NaN is stored: after [update("B", 11.5)], [update("A", nan)],
    [update("C", 0.0)], the call [update("A", 0.0)] searches for
    [(nan, "A")], finds index 0 and pops the entry of ["B"], so that ["B"]
    is in the map and not in the list, and ["A"] is twice in the list. *)
Lemma run_nan_map_mismatch :
  ∃ lb,
    run [OpUpdate "B" gap_11_500; OpUpdate "A" nan; OpUpdate "C" gap_0_000;
         OpUpdate "A" gap_0_000] init = Ok lb ∧
    drivers lb = [(nan, "A"); (gap_0_000, "A"); (gap_0_000, "C")] ∧
    driver_map lb !! "B" = Some gap_11_500 ∧
    "B" ∉ (drivers lb).*2 ∧
    ¬ NoDup (drivers lb).*2.
Proof.
  eexists. split; [vm_compute; reflexivity |]. cbn [drivers driver_map].
  split_and!; [done | by vm_compute | |].
  - cbn. intros Hin.
    repeat (apply elem_of_cons in Hin as [Hin | Hin]; [discriminate |]).
    by apply elem_of_nil in Hin.
  - cbn. intros Hnd. apply NoDup_cons in Hnd as [Hnd _].
    apply Hnd. left.
Qed.

(** ** A NaN score *)

(** C5, on the code.  [update] does not reject a NaN: on the empty
    leaderboard [update("VER", nan)] raises nothing and does not leave the
    leaderboard as it was, it returns the leaderboard with the entry
    [(nan, "VER")] in the list and ["VER" -> nan] in the map. *)
Lemma update_nan_not_rejected :
  ¬ ((∃ e, update init "VER" nan = Raise e) ∨
     update init "VER" nan = Ok init) ∧
  update init "VER" nan =
  Ok {| drivers := [(nan, "VER")]; driver_map := {["VER" := nan]} |}.
Proof.
  assert (update init "VER" nan =
          Ok {| drivers := [(nan, "VER")]; driver_map := {["VER" := nan]} |}) as H.
  { vm_compute. reflexivity. }
  split; [| exact H]. rewrite H. intros [[e He] | He]; [discriminate |].
  injection He as He _. discriminate.
Qed.

(** ** Removal *)

Lemma remove_absent lb name confirm :
  driver_map lb !! name = None →
  (module_4_remove_driver lb name confirm).1 = lb ∧
  removed (module_4_remove_driver lb name confirm).2 = false.
Proof.
  intros Hname. unfold module_4_remove_driver.
  destruct (decide _); [done |]. by rewrite Hname.
Qed.

(** Removing a name that is absent reports a failure and leaves the
    leaderboard, and so its size, as it was.  On a leaderboard whose map
    agrees with its list and that holds no NaN, a confirmed removal of a
    name that is present reports success, deletes the one entry of that
    name from the list and deletes the name from the map. *)
Theorem remove_semantics lb name :
  (∀ confirm, driver_map lb !! name = None →
     (module_4_remove_driver lb name confirm).1 = lb ∧
     removed (module_4_remove_driver lb name confirm).2 = false) ∧
  (map_inv lb → nonan_inv lb →
   ∀ gap, driver_map lb !! name = Some gap →
     ∃ l1 l2, drivers lb = l1 ++ (gap, name) :: l2 ∧
       name ∉ (l1 ++ l2).*2 ∧
       (module_4_remove_driver lb name "y").1 =
         {| drivers := l1 ++ l2;
            driver_map := delete name (driver_map lb) |} ∧
       removed (module_4_remove_driver lb name "y").2 = true).
Proof.
  split.
  - intros confirm. apply remove_absent.
  - intros Hm Hn gap Hgap.
    destruct (remove_present lb name gap Hm Hn Hgap) as (l1 & l2 & Hl & Hname & ->).
    by exists l1, l2.
Qed.

Lemma remove_semantics_witness :
  map_inv demo_board ∧ nonan_inv demo_board ∧
  driver_map demo_board !! "VER" = Some gap_12_252 ∧
  ∃ l1 l2, drivers demo_board = l1 ++ (gap_12_252, "VER") :: l2 ∧
    "VER" ∉ (l1 ++ l2).*2 ∧
    (module_4_remove_driver demo_board "VER" "y").1 =
      {| drivers := l1 ++ l2;
         driver_map := delete "VER" (driver_map demo_board) |} ∧
    removed (module_4_remove_driver demo_board "VER" "y").2 = true.
Proof.
  pose proof demo_board_Inv as [_ Hm Hn].
  assert (driver_map demo_board !! "VER" = Some gap_12_252) as H
    by (vm_compute; reflexivity).
  split; [exact Hm |]. split; [exact Hn |]. split; [exact H |].
  exact (proj2 (remove_semantics demo_board "VER") Hm Hn gap_12_252 H).
Defined.

(** C6, on the code.  A driver that is present is not always removed:
    after [update("VER", nan)] on the empty leaderboard, ["VER"] is in the
    map, and the confirmed removal of ["VER"] finds no entry whose score is
    [==] the recorded one, prints the error message and returns the
    leaderboard with ["VER"] still in it. *)
Lemma remove_nan_driver_fails :
  ∃ lb,
    update init "VER" nan = Ok lb ∧
    driver_map lb !! "VER" = Some nan ∧
    drivers lb = [(nan, "VER")] ∧
    module_4_remove_driver lb "VER" "y" = (lb, RemoveError) ∧
    removed (module_4_remove_driver lb "VER" "y").2 = false.
Proof.
  eexists. split; [vm_compute; reflexivity |].
  split_and!; vm_compute; reflexivity.
Qed.

(** ** An update that changes nothing *)

(** On a sorted list consistent with the map, [update] of a name that is
    present with the score it has returns the same leaderboard: the list
    (the traversal), its length (the size), the map and the rank of the name
    are what they were. *)
Theorem update_same_score lb name gap :
  sorted_inv lb → map_inv lb → driver_map lb !! name = Some gap →
  ∃ lb', update lb name gap = Ok lb' ∧ lb' = lb ∧
    drivers lb' = drivers lb ∧
    length (drivers lb') = length (drivers lb) ∧
    driver_map lb' = driver_map lb ∧
    get_rank lb' name = get_rank lb name.
Proof.
  intros Hs Hm Hgap.
  destruct (update_pop lb name Hs Hm) as (ds & Hup & Hds & _).
  rewrite Hgap in Hds. destruct Hds as (l1 & l2 & Hl & ->).
  exists lb. split; [| done].
  rewrite Hup. destruct Hm as [Hnd _].
  unfold sorted_inv in Hs. rewrite Hl in Hs, Hnd.
  rewrite insort_at by done. rewrite insert_id by done.
  f_equal. destruct lb as [ds dm]. cbn in *. by rewrite Hl.
Qed.

Lemma update_same_score_witness :
  sorted_inv demo_board ∧ map_inv demo_board ∧
  driver_map demo_board !! "PER" = Some gap_14_777 ∧
  update demo_board "PER" gap_14_777 = Ok demo_board.
Proof.
  pose proof demo_board_Inv as [Hs Hm _].
  assert (driver_map demo_board !! "PER" = Some gap_14_777) as H
    by (vm_compute; reflexivity).
  split; [exact Hs |]. split; [exact Hm |]. split; [exact H |].
  destruct (update_same_score demo_board "PER" gap_14_777 Hs Hm H)
    as (lb' & Hup & -> & _).
  exact Hup.
Defined.

(** C7, on the code.  An update with the score a driver has is not always
    without effect: on the leaderboard left by [update("B", 11.5)],
    [update("A", nan)], [update("C", 0.0)], the call [update("C", 0.0)]
    searches for [(0.0, "C")] past the NaN, finds index 0, pops the entry of
    ["B"] and inserts a second entry of ["C"]: the list is not what it
    was. *)
Lemma update_same_score_after_nan :
  ∃ lb lb',
    run [OpUpdate "B" gap_11_500; OpUpdate "A" nan; OpUpdate "C" gap_0_000]
        init = Ok lb ∧
    driver_map lb !! "C" = Some gap_0_000 ∧
    update lb "C" gap_0_000 = Ok lb' ∧
    drivers lb = [(gap_11_500, "B"); (nan, "A"); (gap_0_000, "C")] ∧
    drivers lb' = [(nan, "A"); (gap_0_000, "C"); (gap_0_000, "C")] ∧
    lb' ≠ lb.
Proof.
  do 2 eexists. split; [vm_compute; reflexivity |].
  split; [vm_compute; reflexivity |].
  split; [vm_compute; reflexivity |].
  cbn [drivers]. split_and!; [done | done |].
  by intros [=].
Qed.

(** ** The five drivers *)

(** C8. After the five updates of the demo, the rank of LEC is 1 and the
    top 3 are LEC, SAI and VER with ranks 1, 2 and 3; after the update of
    VER to 11.500, the rank of VER is 2 and the rank of SAI is 3. *)
Theorem five_drivers :
  ∃ lb lb',
    run demo_initial init = Ok lb ∧
    get_rank lb "LEC" = Some 1 ∧
    top_k lb 3 =
      [(1, "LEC", gap_0_000); (2, "SAI", gap_11_850); (3, "VER", gap_12_252)] ∧
    update lb "VER" gap_11_500 = Ok lb' ∧
    get_rank lb' "VER" = Some 2 ∧
    get_rank lb' "SAI" = Some 3.
Proof.
  do 2 eexists. split_and!.
  - vm_compute. reflexivity.
  - vm_compute. reflexivity.
  - vm_compute. reflexivity.
  - vm_compute. reflexivity.
  - vm_compute. reflexivity.
  - vm_compute. reflexivity.
Qed.

(** ** The work done *)

Lemma bisect_left_iters_bound d fuel a x lo hi :
  hi - lo < 2 ^ d → bisect_left_iters fuel a x lo hi ≤ d.
Proof.
  revert fuel lo hi. induction d as [| d IH]; intros fuel lo hi Hw.
  - cbn in Hw. destruct fuel as [| fuel]; cbn [bisect_left_iters]; [done |].
    destruct (Nat.ltb_spec lo hi); [lia | done].
  - destruct fuel as [| fuel]; cbn [bisect_left_iters]; [lia |].
    destruct (Nat.ltb_spec lo hi) as [Hlt |]; [| lia].
    rewrite Nat.pow_succ_r' in Hw.
    assert (lo ≤ (lo + hi) / 2 ∧ (lo + hi) / 2 < hi) as [Hm1 Hm2].
    { split; [apply Nat.div_le_lower_bound | apply Nat.Div0.div_lt_upper_bound]; lia. }
    assert (2 * ((lo + hi) / 2) ≤ lo + hi ∧ lo + hi < 2 * S ((lo + hi) / 2))
      as [Hm3 Hm4].
    { pose proof (Nat.div_mod_eq (lo + hi) 2).
      pose proof (Nat.mod_upper_bound (lo + hi) 2). lia. }
    destruct (a !! _) as [am |]; [| lia].
    destruct (tuple_lt am x); apply le_n_S, IH; lia.
Qed.

Lemma find_entry_iters_last name gap l1 :
  name ∉ l1.*2 → is_nan gap = false →
  find_entry_iters name gap (l1 ++ [(gap, name)]) = length (l1 ++ [(gap, name)]).
Proof.
  intros Hname Hgap. induction l1 as [| [g n] l1 IH]; cbn.
  - rewrite String.eqb_refl. cbn.
    by assert (SFeqb gap gap = true) as -> by (by apply SFeqb_iff).
  - rewrite fmap_cons, not_elem_of_cons in Hname. destruct Hname as [Hne Hname].
    cbn in Hne. destruct (String.eqb_spec n name) as [-> | _]; [done |].
    cbn. by rewrite IH.
Qed.

(** C9, measured on the code.  The search of [get_rank] makes at most
    [log2 n + 1] iterations, but the other two operations are linear in the
    worst case: an [update] that puts a new entry before all [n] others
    moves [n] items of the list, and the scan that removes the last of [n]
    entries makes [n] iterations. *)
Theorem update_remove_linear lb name gap :
  (∀ x, bisect_left_iters (length (drivers lb)) (drivers lb) x
          0 (length (drivers lb)) ≤ Nat.log2 (length (drivers lb)) + 1) ∧
  (driver_map lb !! name = None →
   Forall (λ e, tuple_lt (gap, name) e = true) (drivers lb) →
   update_moves lb name gap = length (drivers lb)) ∧
  (∀ l1, drivers lb = l1 ++ [(gap, name)] →
   name ∉ l1.*2 → is_nan gap = false →
   find_entry_iters name gap (drivers lb) = length (drivers lb)).
Proof.
  split_and!.
  - intros x. apply bisect_left_iters_bound.
    rewrite Nat.sub_0_r, Nat.add_1_r.
    destruct (drivers lb) as [| e l]; [cbn; lia |].
    apply Nat.log2_spec. cbn. lia.
  - intros Hname Hall. unfold update_moves. rewrite Hname.
    rewrite (bisect_right_split [] (drivers lb)) by done. done.
  - intros l1 -> Hname Hgap. by apply find_entry_iters_last.
Qed.

Lemma update_remove_linear_witness :
  driver_map demo_board !! "ALO" = None ∧
  update_moves demo_board "ALO" gap_0_000 = 5 ∧
  find_entry_iters "BOT" gap_16_347 (drivers demo_board) = 5.
Proof.
  assert (driver_map demo_board !! "ALO" = None) as H by (vm_compute; reflexivity).
  split; [exact H |]. split.
  - destruct (update_remove_linear demo_board "ALO" gap_0_000)
      as (_ & Hup & _).
    apply Hup; [exact H |]. repeat constructor.
  - destruct (update_remove_linear demo_board "BOT" gap_16_347)
      as (_ & _ & Hrm).
    apply (Hrm [(gap_0_000, "LEC"); (gap_11_850, "SAI"); (gap_12_252, "VER");
                (gap_14_777, "PER")]).
    + reflexivity.
    + vm_compute. intros Hin.
      repeat (apply elem_of_cons in Hin as [Hin | Hin]; [discriminate |]).
      by apply elem_of_nil in Hin.
    + reflexivity.
Defined.

(** * Further properties of the code *)

(** ** [bisect] and [insort] on any list *)

Lemma partition_loop_bounds p fuel a lo hi :
  lo ≤ hi →
  lo ≤ partition_loop p fuel a lo hi ∧ partition_loop p fuel a lo hi ≤ hi.
Proof.
  revert lo hi. induction fuel as [| fuel IH]; intros lo hi Hle;
    cbn [partition_loop]; [lia |].
  destruct (Nat.ltb_spec lo hi) as [Hlt |]; [| lia].
  assert (lo ≤ (lo + hi) / 2 ∧ (lo + hi) / 2 < hi) as [Hm1 Hm2].
  { split; [apply Nat.div_le_lower_bound | apply Nat.Div0.div_lt_upper_bound]; lia. }
  destruct (a !! _) as [am |]; [| lia].
  destruct (p am).
  - destruct (IH ((lo + hi) / 2 + 1) hi); lia.
  - destruct (IH lo ((lo + hi) / 2)); lia.
Qed.

Lemma bisect_left_le a x : bisect.bisect_left a x ≤ length a.
Proof.
  unfold bisect.bisect_left. rewrite bisect_left_loop_partition.
  apply partition_loop_bounds. lia.
Qed.

Lemma insort_any_Permutation a x : bisect.insort a x ≡ₚ x :: a.
Proof.
  unfold bisect.insort, bisect.list_insert_at.
  rewrite <- Permutation_middle. by rewrite take_drop.
Qed.

(** X1. Whatever the list, sorted or not, both searches return an index
    between 0 and its length, and [bisect_left] with [lo] and [hi] left at
    their defaults gives the same index for every amount of fuel that covers
    the list: the loop ends by itself. *)
Theorem bisect_in_range a x :
  bisect.bisect_left a x ≤ length a ∧
  bisect.bisect_right a x ≤ length a ∧
  (∀ fuel, length a ≤ fuel →
     bisect.bisect_left_loop fuel a x 0 (length a) = bisect.bisect_left a x ∧
     bisect.bisect_right_loop fuel a x 0 (length a) = bisect.bisect_right a x).
Proof.
  split_and!.
  - apply bisect_left_le.
  - unfold bisect.bisect_right. rewrite bisect_right_loop_partition.
    apply partition_loop_bounds. lia.
  - intros fuel Hfuel. split; [by apply bisect_left_fuel | by apply bisect_right_fuel].
Qed.

(** X2. On a sorted list without a NaN, [insort] of an entry whose score is
    not a NaN puts it where the order asks: the result is sorted, it is the
    old list with the entry inserted at one place, every entry before that
    place is [<=] the new one (the equal ones included: the new entry goes
    after them) and every entry after it is strictly greater. *)
Theorem insort_keeps_sorted a x :
  StronglySorted entry_le a →
  Forall (λ e : entry, is_nan e.1 = false) a → is_nan x.1 = false →
  StronglySorted entry_le (bisect.insort a x) ∧
  ∃ l1 l2, a = l1 ++ l2 ∧ bisect.insort a x = l1 ++ x :: l2 ∧
    Forall (λ e, tuple_le e x = true) l1 ∧
    Forall (λ e, tuple_lt x e = true) l2.
Proof.
  intros Hs Hn Hx. split; [by apply insort_sorted |].
  destruct (insort_sorted_split a x Hs) as (l1 & l2 & -> & Hins & H1 & H2).
  exists l1, l2. split_and!; [done | done | | done].
  apply Forall_app in Hn as [Hn1 _].
  rewrite Forall_forall in H1, Hn1 |- *. intros e He.
  apply tuple_lt_total; auto.
Qed.

Lemma insort_keeps_sorted_witness :
  StronglySorted entry_le (drivers demo_board) ∧
  StronglySorted entry_le (bisect.insort (drivers demo_board) (gap_11_500, "VER")).
Proof.
  pose proof demo_board_Inv as [Hs _ Hn].
  split; [exact Hs |].
  exact (proj1 (insort_keeps_sorted (drivers demo_board) (gap_11_500, "VER")
                  Hs Hn eq_refl)).
Defined.

(** ** [update] and [get_rank] on a consistent leaderboard *)

(** The rank of a name is the place of its entry in the list. *)
Lemma get_rank_lookup lb n r :
  sorted_inv lb → map_inv lb →
  get_rank lb n = Some r ↔
  1 ≤ r ∧ ∃ g, drivers lb !! (r - 1) = Some (g, n).
Proof.
  intros Hs [Hnd Hm]. unfold get_rank, sorted_inv in *. split.
  - destruct (driver_map lb !! n) as [g |] eqn:Hg; [| done].
    apply Hm in Hg. apply list_elem_of_split in Hg as (l1 & l2 & Hl).
    rewrite Hl in *. rewrite bisect_left_at by done.
    intros [= <-]. split; [lia |]. exists g.
    rewrite Nat.add_sub. by apply list_lookup_middle.
  - intros (Hr & g & Hlook).
    assert ((g, n) ∈ drivers lb) as Hin by (by eapply list_elem_of_lookup_2).
    apply Hm in Hin as ->.
    pose proof (take_drop_middle _ _ _ Hlook) as Hl.
    rewrite <- Hl in Hs, Hnd. rewrite <- Hl at 1.
    rewrite bisect_left_at by done.
    rewrite length_take. apply lookup_lt_Some in Hlook. f_equal.
    unfold entry in *. lia.
Qed.

(** X3. On a sorted leaderboard whose map agrees with its list, [update]
    raises nothing, whatever the score: the [pop] is always in range. *)
Theorem update_never_raises lb name gap :
  sorted_inv lb → map_inv lb → ∃ lb', update lb name gap = Ok lb'.
Proof.
  intros Hs Hm. destruct (update_pop lb name Hs Hm) as (ds & Hup & _).
  eexists. apply Hup.
Qed.

Lemma update_never_raises_witness :
  sorted_inv demo_board ∧ map_inv demo_board ∧
  ∃ lb', update demo_board "VER" nan = Ok lb'.
Proof.
  pose proof demo_board_Inv as [Hs Hm _].
  split; [exact Hs |]. split; [exact Hm |].
  exact (update_never_raises demo_board "VER" nan Hs Hm).
Defined.

(** X4. After [update(name, gap)] on such a leaderboard the map gives [gap]
    for [name], the list holds [(gap, name)] and no other entry of that
    name, and every other name has the score and the entries it had. *)
Theorem update_then_lookup lb name gap :
  sorted_inv lb → map_inv lb →
  ∃ lb', update lb name gap = Ok lb' ∧
    driver_map lb' !! name = Some gap ∧
    (∀ g, (g, name) ∈ drivers lb' ↔ g = gap) ∧
    (∀ n g, n ≠ name → driver_map lb' !! n = driver_map lb !! n ∧
                        ((g, n) ∈ drivers lb' ↔ (g, n) ∈ drivers lb)).
Proof.
  intros Hs Hm.
  destruct (update_pop lb name Hs Hm)
    as (ds & Hup & Hds & Hsd & Hnd & Hname & Hsub & Hlook).
  eexists. split; [apply Hup |]. cbn. split_and!.
  - apply lookup_insert_eq.
  - intros g. rewrite insort_any_Permutation, elem_of_cons. split.
    + intros [[= ->] | Hin]; [done |].
      exfalso. apply Hname. by apply (list_elem_of_fmap_2 snd) in Hin.
    + intros ->. by left.
  - intros n g Hne. rewrite lookup_insert_ne by done. split; [done |].
    rewrite insort_any_Permutation, elem_of_cons.
    destruct Hm as [_ Hm]. rewrite <- Hm, (Hlook n g Hne). naive_solver.
Qed.

Lemma update_then_lookup_witness :
  sorted_inv demo_board ∧ map_inv demo_board ∧
  ∃ lb', update demo_board "VER" gap_11_500 = Ok lb' ∧
    driver_map lb' !! "VER" = Some gap_11_500.
Proof.
  pose proof demo_board_Inv as [Hs Hm _].
  split; [exact Hs |]. split; [exact Hm |].
  destruct (update_then_lookup demo_board "VER" gap_11_500 Hs Hm)
    as (lb' & Hup & Hl & _).
  exists lb'. split; [exact Hup | exact Hl].
Defined.

(** X5. On such a leaderboard the rank of a name is the place of its entry
    in the list, counted from 1: ranks run from 1 to the number of drivers
    and two names never share one. *)
Theorem rank_is_position lb :
  sorted_inv lb → map_inv lb →
  (∀ n r, get_rank lb n = Some r ↔
          1 ≤ r ∧ ∃ g, drivers lb !! (r - 1) = Some (g, n)) ∧
  (∀ n r, get_rank lb n = Some r → 1 ≤ r ∧ r ≤ length (drivers lb)) ∧
  (∀ n1 n2 r, get_rank lb n1 = Some r → get_rank lb n2 = Some r → n1 = n2).
Proof.
  intros Hs Hm. split_and!.
  - intros n r. by apply get_rank_lookup.
  - intros n r Hr. apply get_rank_lookup in Hr as (H1 & g & Hl); [| done..].
    apply lookup_lt_Some in Hl. unfold entry in *. lia.
  - intros n1 n2 r H1 H2.
    apply get_rank_lookup in H1 as (_ & g1 & Hl1); [| done..].
    apply get_rank_lookup in H2 as (_ & g2 & Hl2); [| done..].
    congruence.
Qed.

Lemma rank_is_position_witness :
  sorted_inv demo_board ∧ map_inv demo_board ∧
  (get_rank demo_board "PER" = Some 4 ↔
   1 ≤ 4 ∧ ∃ g, drivers demo_board !! (4 - 1) = Some (g, "PER")).
Proof.
  pose proof demo_board_Inv as [Hs Hm _].
  split; [exact Hs |]. split; [exact Hm |].
  exact (proj1 (rank_is_position demo_board Hs Hm) "PER" 4).
Defined.

(** X6. On such a leaderboard [top_k] and [get_rank] agree: a triple
    [(rank, name, gap)] returned by [top_k(k)], for any [k], carries the
    rank [get_rank] gives for the name and the gap the map holds for it. *)
Theorem top_k_agrees_with_get_rank lb k r n g :
  sorted_inv lb → map_inv lb →
  (r, n, g) ∈ top_k lb k →
  get_rank lb n = Some r ∧ driver_map lb !! n = Some g.
Proof.
  intros Hs Hm Hin. rewrite top_k_ranked in Hin. unfold ranked, slice_to in Hin.
  apply elem_of_lookup_imap_1 in Hin as (i & [g' n'] & [= -> -> ->] & Hl).
  apply lookup_take_Some in Hl as [Hl _]. split.
  - apply get_rank_lookup; [done.. |]. split; [lia |]. exists g'.
    by rewrite Nat.add_sub.
  - destruct Hm as [_ Hm]. apply Hm. by eapply list_elem_of_lookup_2.
Qed.

Lemma top_k_agrees_with_get_rank_witness :
  sorted_inv demo_board ∧ map_inv demo_board ∧
  (2, "SAI", gap_11_850) ∈ top_k demo_board 3 ∧
  get_rank demo_board "SAI" = Some 2 ∧
  driver_map demo_board !! "SAI" = Some gap_11_850.
Proof.
  pose proof demo_board_Inv as [Hs Hm _].
  assert ((2, "SAI", gap_11_850) ∈ top_k demo_board 3) as Hin.
  { vm_compute. right. left. }
  split; [exact Hs |]. split; [exact Hm |]. split; [exact Hin |].
  exact (top_k_agrees_with_get_rank demo_board 3 2 "SAI" gap_11_850 Hs Hm Hin).
Defined.

(** ** How an update moves the ranks *)

Lemma count_before_middle e l1 x l2 :
  count_before e (l1 ++ x :: l2) =
  count_before e (l1 ++ l2) + Nat.b2n (tuple_lt x e).
Proof.
  unfold count_before. rewrite !List.filter_app. cbn.
  destruct (tuple_lt x e); rewrite !length_app; cbn; lia.
Qed.

Lemma count_before_mono x y l :
  (∀ e, tuple_lt e x = true → tuple_lt e y = true) →
  count_before x l ≤ count_before y l.
Proof.
  intros Hxy. unfold count_before. induction l as [| e l IH]; cbn; [done |].
  destruct (tuple_lt e x) eqn:Hx.
  - rewrite (Hxy e Hx). cbn. lia.
  - destruct (tuple_lt e y); cbn; lia.
Qed.

Lemma get_rank_count lb n g :
  sorted_inv lb → driver_map lb !! n = Some g →
  get_rank lb n = Some (count_before (g, n) (drivers lb) + 1).
Proof.
  intros Hs Hg. unfold get_rank. rewrite Hg. by rewrite bisect_left_count.
Qed.

(** The leaderboard [update] returns, with the list it was built from. *)
Lemma update_shape lb name gap :
  Inv lb → is_nan gap = false →
  ∃ lb' l1 l2,
    update lb name gap = Ok lb' ∧ Inv lb' ∧
    drivers lb' = l1 ++ (gap, name) :: l2 ∧
    driver_map lb' = <[name := gap]> (driver_map lb) ∧
    name ∉ (l1 ++ l2).*2 ∧
    match driver_map lb !! name with
    | Some old => ∃ k1 k2, drivers lb = k1 ++ (old, name) :: k2 ∧
                           l1 ++ l2 = k1 ++ k2
    | None => drivers lb = l1 ++ l2
    end.
Proof.
  intros HI Hgap. pose proof HI as [Hs Hm _].
  destruct (update_Inv lb name gap HI Hgap) as (lb' & Hup & HI').
  destruct (update_pop lb name Hs Hm) as (ds & Hup' & Hds & Hsd & _ & Hname & _).
  rewrite Hup' in Hup. injection Hup as <-.
  destruct (insort_sorted_split ds (gap, name) Hsd) as (l1 & l2 & -> & Hins & _).
  eexists; exists l1, l2. split_and!; [apply Hup' | done | done | done | done |].
  destruct (driver_map lb !! name); [| done].
  destruct Hds as (k1 & k2 & Hk & Hds). by exists k1, k2.
Qed.

(** X7. An update with a score that is not a NaN moves every other driver
    by at most one place: its new rank is its old rank, plus one if the new
    entry of the updated name comes before it, minus one if the old entry
    of that name did. *)
Theorem update_shifts_others lb name gap n g :
  Inv lb → is_nan gap = false →
  n ≠ name → driver_map lb !! n = Some g →
  ∃ lb' r r',
    update lb name gap = Ok lb' ∧
    get_rank lb n = Some r ∧ get_rank lb' n = Some r' ∧
    r' + match driver_map lb !! name with
         | Some old => Nat.b2n (tuple_lt (old, name) (g, n))
         | None => 0
         end
    = r + Nat.b2n (tuple_lt (gap, name) (g, n)).
Proof.
  intros HI Hgap Hne Hg.
  destruct (update_shape lb name gap HI Hgap)
    as (lb' & l1 & l2 & Hup & HI' & Hl' & Hm' & _ & Hold).
  exists lb', (count_before (g, n) (drivers lb) + 1),
         (count_before (g, n) (drivers lb') + 1).
  split_and!; [done | | |].
  - apply get_rank_count; [apply HI | done].
  - apply get_rank_count; [apply HI' |].
    rewrite Hm'. by rewrite lookup_insert_ne.
  - rewrite Hl', count_before_middle.
    destruct (driver_map lb !! name) as [old |].
    + destruct Hold as (k1 & k2 & Hk & Hkk).
      rewrite Hk, count_before_middle. unfold entry in *. rewrite Hkk. lia.
    + rewrite Hold. unfold entry in *. lia.
Qed.

Lemma update_shifts_others_witness :
  Inv demo_board ∧
  ∃ lb' r r',
    update demo_board "VER" gap_11_500 = Ok lb' ∧
    get_rank demo_board "SAI" = Some r ∧ get_rank lb' "SAI" = Some r' ∧
    r' + match driver_map demo_board !! "VER" with
         | Some old => Nat.b2n (tuple_lt (old, "VER") (gap_11_850, "SAI"))
         | None => 0
         end
    = r + Nat.b2n (tuple_lt (gap_11_500, "VER") (gap_11_850, "SAI")).
Proof.
  split; [exact demo_board_Inv |].
  apply (update_shifts_others demo_board "VER" gap_11_500 "SAI" gap_11_850).
  - exact demo_board_Inv.
  - reflexivity.
  - discriminate.
  - vm_compute. reflexivity.
Defined.

Lemma update_rank_order lb name old new :
  Inv lb → driver_map lb !! name = Some old → is_nan new = false →
  ∃ lb' r r',
    update lb name new = Ok lb' ∧
    get_rank lb name = Some r ∧ get_rank lb' name = Some r' ∧
    (SFleb new old = true → r' ≤ r) ∧
    (SFleb old new = true → r ≤ r').
Proof.
  intros HI Hold Hnew.
  destruct (update_shape lb name new HI Hnew)
    as (lb' & l1 & l2 & Hup & HI' & Hl' & Hm' & _ & Hsh).
  rewrite Hold in Hsh. destruct Hsh as (k1 & k2 & Hl & Hk).
  exists lb', (count_before (old, name) (drivers lb) + 1),
         (count_before (new, name) (drivers lb') + 1).
  split_and!; [done | | | |].
  - apply get_rank_count; [apply HI | done].
  - apply get_rank_count; [apply HI' |]. rewrite Hm'. apply lookup_insert_eq.
  - intros Hle. rewrite Hl, Hl', !count_before_middle, !tuple_lt_irrefl.
    unfold entry in *. rewrite Hk. cbn.
    assert (count_before (new, name) (k1 ++ k2) ≤
            count_before (old, name) (k1 ++ k2)); [| lia].
    apply count_before_mono. intros e He.
    apply (tuple_lt_le_trans _ _ _ He). unfold tuple_le. cbn.
    rewrite String.eqb_refl, Hle. by destruct (SFeqb new old).
  - intros Hle. rewrite Hl, Hl', !count_before_middle, !tuple_lt_irrefl.
    unfold entry in *. rewrite Hk. cbn.
    assert (count_before (old, name) (k1 ++ k2) ≤
            count_before (new, name) (k1 ++ k2)); [| lia].
    apply count_before_mono. intros e He.
    apply (tuple_lt_le_trans _ _ _ He). unfold tuple_le. cbn.
    rewrite String.eqb_refl, Hle. by destruct (SFeqb old new).
Qed.

(** X8. A score that does not grow never costs a place, and a score that
    does not shrink never gains one: after [update(name, new)] of a driver
    that had [old], neither a NaN, the rank of [name] is at most the old
    rank when [new <= old] and at least the old rank when [old <= new]. *)
Theorem update_rank_monotone lb name old new :
  Inv lb → driver_map lb !! name = Some old → is_nan new = false →
  ∃ lb' r r',
    update lb name new = Ok lb' ∧
    get_rank lb name = Some r ∧ get_rank lb' name = Some r' ∧
    (SFleb new old = true → r' ≤ r) ∧
    (SFleb old new = true → r ≤ r').
Proof. apply update_rank_order. Qed.

Lemma update_rank_monotone_witness :
  Inv demo_board ∧
  ∃ lb' r r',
    update demo_board "VER" gap_11_500 = Ok lb' ∧
    get_rank demo_board "VER" = Some r ∧ get_rank lb' "VER" = Some r' ∧
    (SFleb gap_11_500 gap_12_252 = true → r' ≤ r) ∧
    (SFleb gap_12_252 gap_11_500 = true → r ≤ r').
Proof.
  split; [exact demo_board_Inv |].
  apply (update_rank_monotone demo_board "VER" gap_12_252 gap_11_500).
  - exact demo_board_Inv.
  - vm_compute. reflexivity.
  - reflexivity.
Defined.

(** ** Adding and removing *)

(** X9. Adding a new driver and removing it again gives back the
    leaderboard: for a name that is not in the map and a score that is not
    a NaN, the confirmed removal after [update] reports success and returns
    the list and the map as they were before the update. *)
Theorem update_then_remove lb name gap :
  map_inv lb → driver_map lb !! name = None → is_nan gap = false →
  ∃ lb', update lb name gap = Ok lb' ∧
    module_4_remove_driver lb' name "y" = (lb, Removed).
Proof.
  intros [Hnd Hm] Hname Hgap. unfold update. rewrite Hname. cbn.
  eexists. split; [reflexivity |].
  unfold module_4_remove_driver. cbn [drivers driver_map].
  destruct (decide _) as [He | _]; [by apply insert_non_empty in He |].
  rewrite lookup_insert_eq. change (String.eqb "y" "y") with true. cbn [negb].
  unfold bisect.insort, bisect.list_insert_at.
  rewrite find_entry_at; [| | done].
  - rewrite Nat.add_0_l, delete_middle, take_drop, delete_insert_id by done.
    by destruct lb.
  - intros Hin. apply list_elem_of_fmap in Hin as ([g n] & -> & Hin).
    apply elem_of_take in Hin as (i & Hin & _).
    apply list_elem_of_lookup_2, Hm in Hin. cbn in *. congruence.
Qed.

Lemma update_then_remove_witness :
  map_inv demo_board ∧ driver_map demo_board !! "HAM" = None ∧
  ∃ lb', update demo_board "HAM" gap_18_481 = Ok lb' ∧
    module_4_remove_driver lb' "HAM" "y" = (demo_board, Removed).
Proof.
  pose proof demo_board_Inv as [_ Hm _].
  assert (driver_map demo_board !! "HAM" = None) as H by (vm_compute; reflexivity).
  split; [exact Hm |]. split; [exact H |].
  exact (update_then_remove demo_board "HAM" gap_18_481 Hm H eq_refl).
Defined.

Lemma find_entry_Some name gap i l idx :
  find_entry name gap i l = Some idx →
  i ≤ idx ∧ ∃ g, l !! (idx - i) = Some (g, name) ∧ SFeqb g gap = true.
Proof.
  revert i. induction l as [| [g n] l IH]; intros i; cbn; [done |].
  destruct (String.eqb_spec n name) as [-> | _]; cbn.
  - destruct (SFeqb g gap) eqn:He.
    + intros [= <-]. split; [lia |]. exists g. by rewrite Nat.sub_diag.
    + intros H. apply IH in H as (Hle & g' & Hl & Hg'). split; [lia |].
      exists g'. split; [| done].
      replace (idx - i) with (S (idx - S i)) by lia. done.
  - intros H. apply IH in H as (Hle & g' & Hl & Hg'). split; [lia |].
    exists g'. split; [| done].
    replace (idx - i) with (S (idx - S i)) by lia. done.
Qed.

(** X10. Whatever the leaderboard, [module_4_remove_driver] either leaves it
    untouched or removes one thing: when it does not report success the
    leaderboard is returned as it was, and when it does, the answer was
    ["y"], one entry of that name is gone from the list, the name is gone
    from the map, and every other name keeps its score. *)
Theorem remove_one_or_nothing lb name confirm :
  let r := module_4_remove_driver lb name confirm in
  (removed r.2 = false → r.1 = lb) ∧
  (removed r.2 = true →
     confirm = "y" ∧
     ∃ idx g, drivers lb !! idx = Some (g, name) ∧
       drivers r.1 = delete idx (drivers lb) ∧
       S (length (drivers r.1)) = length (drivers lb) ∧
       driver_map r.1 !! name = None ∧
       S (size (driver_map r.1)) = size (driver_map lb) ∧
       ∀ n, n ≠ name → driver_map r.1 !! n = driver_map lb !! n).
Proof.
  cbn zeta. unfold module_4_remove_driver.
  destruct (decide _) as [| _]; [done |].
  destruct (driver_map lb !! name) as [gap |] eqn:Hgap; [| done].
  destruct (String.eqb_spec confirm "y") as [-> | _]; cbn [negb]; [| done].
  destruct (find_entry name gap 0 (drivers lb)) as [idx |] eqn:Hf; [| done].
  cbn. split; [done |]. intros _. split; [done |].
  apply find_entry_Some in Hf as (_ & g & Hl & _). rewrite Nat.sub_0_r in Hl.
  exists idx, g. split_and!; [done | done | | | |].
  - rewrite length_delete by eauto. apply lookup_lt_Some in Hl.
    unfold entry in *. lia.
  - apply lookup_delete_eq.
  - rewrite map_size_delete_Some by eauto.
    assert (size (driver_map lb) ≠ 0); [| lia].
    intros H0. apply map_size_empty_iff in H0. by rewrite H0 in Hgap.
  - intros n Hne. by rewrite lookup_delete_ne.
Qed.

(** X11. A confirmed removal on a leaderboard that satisfies the invariants
    takes the name out of the ranking and moves the others up by at most
    one: [get_rank] of the removed name is [None], and every other driver
    keeps its rank, less one if the removed entry came before it. *)
Theorem remove_shifts_others lb name gap n g :
  Inv lb → driver_map lb !! name = Some gap →
  n ≠ name → driver_map lb !! n = Some g →
  let lb' := (module_4_remove_driver lb name "y").1 in
  get_rank lb' name = None ∧
  ∃ r r', get_rank lb n = Some r ∧ get_rank lb' n = Some r' ∧
    r = r' + Nat.b2n (tuple_lt (gap, name) (g, n)).
Proof.
  intros HI Hgap Hne Hg. cbn zeta.
  pose proof (remove_Inv lb name "y" HI) as HI'.
  pose proof HI as [Hs Hm Hn].
  destruct (remove_present lb name gap Hm Hn Hgap) as (l1 & l2 & Hl & _ & Heq).
  rewrite Heq in *. cbn [fst] in *. split.
  - unfold get_rank. cbn. by rewrite lookup_delete_eq.
  - exists (count_before (g, n) (drivers lb) + 1),
           (count_before (g, n) (l1 ++ l2) + 1).
    split_and!.
    + by apply get_rank_count.
    + rewrite (get_rank_count _ n g); [done | apply HI' |].
      cbn. by rewrite lookup_delete_ne.
    + rewrite Hl, count_before_middle. unfold entry in *. lia.
Qed.

Lemma remove_shifts_others_witness :
  Inv demo_board ∧
  get_rank (module_4_remove_driver demo_board "SAI" "y").1 "SAI" = None ∧
  ∃ r r', get_rank demo_board "PER" = Some r ∧
    get_rank (module_4_remove_driver demo_board "SAI" "y").1 "PER" = Some r' ∧
    r = r' + Nat.b2n (tuple_lt (gap_11_850, "SAI") (gap_14_777, "PER")).
Proof.
  split; [exact demo_board_Inv |].
  apply (remove_shifts_others demo_board "SAI" gap_11_850 "PER" gap_14_777).
  - exact demo_board_Inv.
  - vm_compute. reflexivity.
  - discriminate.
  - vm_compute. reflexivity.
Defined.

(** ** A NaN on the leaderboard *)

Lemma tuple_lt_nan_r e n : tuple_lt e (nan, n) = false.
Proof.
  apply not_true_is_false. rewrite tuple_lt_iff, SFltb_iff, SFeqb_iff. cbn.
  naive_solver.
Qed.

Lemma find_entry_nan name i l : find_entry name nan i l = None.
Proof.
  revert i. induction l as [| [g n] l IH]; intros i; cbn; [done |].
  assert (SFeqb g nan = false) as ->.
  { apply not_true_is_false. rewrite SFeqb_iff. cbn. naive_solver. }
  by rewrite andb_false_r.
Qed.

(** X12. A driver whose score is a NaN is reported at rank 1 although its
    entry is not first: when no other driver has a NaN, [get_rank] of a name
    recorded with a NaN is 1; and when [update] adds a NaN under a new name
    to a leaderboard that holds no NaN, the entry is put last in the list
    while [get_rank] answers 1. *)
Theorem nan_ranked_first lb name :
  (driver_map lb !! name = Some nan →
   Forall (λ e : entry, e.2 ≠ name → is_nan e.1 = false) (drivers lb) →
   get_rank lb name = Some 1) ∧
  (nonan_inv lb → driver_map lb !! name = None →
   ∃ lb', update lb name nan = Ok lb' ∧
     last (drivers lb') = Some (nan, name) ∧ get_rank lb' name = Some 1).
Proof.
  assert (∀ a, bisect.bisect_left a (nan, name) = 0) as Hb.
  { intros a. apply (bisect_left_split [] a); [done |].
    apply Forall_forall. intros e _. apply tuple_lt_nan_r. }
  split.
  - intros Hn _. unfold get_rank. by rewrite Hn, Hb.
  - intros _ Hn.
    exists {| drivers := bisect.insort (drivers lb) (nan, name);
              driver_map := <[name := nan]> (driver_map lb) |}.
    split; [by unfold update; rewrite Hn |].
    unfold get_rank. cbn [drivers driver_map].
    rewrite lookup_insert_eq, Hb. split; [| done].
    rewrite <- (app_nil_r (drivers lb)) at 1.
    rewrite insort_split; [apply last_snoc | | done].
    apply Forall_forall. intros e _. apply not_true_is_false.
    rewrite tuple_lt_iff, SFltb_iff, SFeqb_iff. cbn. naive_solver.
Qed.

(** X13. A driver whose score is a NaN cannot be removed: the scan compares
    the scores with [==], finds no entry, and [module_4_remove_driver]
    returns the leaderboard as it was, with the error message when the
    removal was confirmed. *)
Theorem nan_never_removed lb name confirm :
  driver_map lb !! name = Some nan →
  (module_4_remove_driver lb name confirm).1 = lb ∧
  removed (module_4_remove_driver lb name confirm).2 = false ∧
  module_4_remove_driver lb name "y" = (lb, RemoveError).
Proof.
  intros Hn. unfold module_4_remove_driver.
  destruct (decide _) as [He | _].
  { by rewrite He, lookup_empty in Hn. }
  rewrite Hn, find_entry_nan. change (String.eqb "y" "y") with true. cbn [negb].
  by destruct (negb (String.eqb confirm "y")).
Qed.

Lemma nan_never_removed_witness :
  driver_map {| drivers := [(nan, "VER")]; driver_map := {["VER" := nan]} |}
    !! "VER" = Some nan ∧
  module_4_remove_driver
    {| drivers := [(nan, "VER")]; driver_map := {["VER" := nan]} |} "VER" "y"
  = ({| drivers := [(nan, "VER")]; driver_map := {["VER" := nan]} |}, RemoveError).
Proof.
  assert (driver_map {| drivers := [(nan, "VER")]; driver_map := {["VER" := nan]} |}
            !! "VER" = Some nan) as H by (vm_compute; reflexivity).
  split; [exact H |].
  exact (proj2 (proj2 (nan_never_removed _ "VER" "y" H))).
Defined.

Lemma nan_ranked_first_witness :
  nonan_inv demo_board ∧ driver_map demo_board !! "HAM" = None ∧
  ∃ lb', update demo_board "HAM" nan = Ok lb' ∧
    last (drivers lb') = Some (nan, "HAM") ∧ get_rank lb' "HAM" = Some 1.
Proof.
  assert (driver_map demo_board !! "HAM" = None) as H by (vm_compute; reflexivity).
  pose proof (inv_nonan _ demo_board_Inv) as Hn.
  split; [exact Hn |]. split; [exact H |].
  exact (proj2 (nan_ranked_first demo_board "HAM") Hn H).
Defined.

Lemma remove_one_or_nothing_witness :
  removed (module_4_remove_driver demo_board "VER" "y").2 = true ∧
  S (length (drivers (module_4_remove_driver demo_board "VER" "y").1)) =
    length (drivers demo_board) ∧
  driver_map (module_4_remove_driver demo_board "VER" "y").1 !! "VER" = None.
Proof.
  assert (removed (module_4_remove_driver demo_board "VER" "y").2 = true) as H
    by (vm_compute; reflexivity).
  split; [exact H |].
  destruct (proj2 (remove_one_or_nothing demo_board "VER" "y") H)
    as (_ & idx & g & _ & _ & Hlen & Hmap & _).
  split; [exact Hlen | exact Hmap].
Defined.

Lemma bisect_in_range_witness :
  length (drivers demo_board) ≤ 9 ∧
  bisect.bisect_left_loop 9 (drivers demo_board) (gap_12_252, "VER")
    0 (length (drivers demo_board)) =
  bisect.bisect_left (drivers demo_board) (gap_12_252, "VER").
Proof.
  assert (length (drivers demo_board) ≤ 9) as H by (vm_compute; lia).
  split; [exact H |].
  destruct (bisect_in_range (drivers demo_board) (gap_12_252, "VER"))
    as (_ & _ & Hf).
  exact (proj1 (Hf 9 H)).
Defined.

(** ** More about [top_k] *)

Lemma imap_take {A B} (f : nat → A → B) n l :
  imap f (take n l) = take n (imap f l).
Proof.
  revert f n. induction l as [| x l IH]; intros f [| n]; cbn; try done.
  by rewrite IH.
Qed.

(** X14. A shorter [top_k] is the beginning of a longer one, and [top_k(k)]
    has [min(k, n)] triples: for [0 <= k1 <= k2], [top_k(k1)] is the first
    [k1] triples of [top_k(k2)], and [top_k(0)] is empty. *)
Theorem top_k_nested lb k1 k2 :
  (0 ≤ k1)%Z → (k1 ≤ k2)%Z →
  top_k lb k1 = take (Z.to_nat k1) (top_k lb k2) ∧
  length (top_k lb k1) = Z.to_nat k1 `min` length (drivers lb) ∧
  top_k lb 0 = [].
Proof.
  intros H1 H2.
  assert (∀ k, (0 ≤ k)%Z →
            top_k lb k = ranked (take (Z.to_nat k) (drivers lb))) as Htop.
  { intros k Hk. rewrite top_k_ranked. unfold slice_to.
    destruct (Z.ltb_spec k 0) as [| _]; [lia |].
    destruct (Z.min_spec k (Z.of_nat (length (drivers lb)))) as [[_ ->] | [Hle ->]];
      [done |].
    rewrite Nat2Z.id. by rewrite !take_ge by lia. }
  split_and!.
  - rewrite !Htop by lia. unfold ranked. rewrite <- imap_take, take_take.
    do 2 f_equal. lia.
  - rewrite Htop by lia. unfold ranked. by rewrite length_imap, length_take.
  - rewrite Htop by lia. done.
Qed.

Lemma top_k_nested_witness :
  (0 ≤ 2)%Z ∧ (2 ≤ 4)%Z ∧
  top_k demo_board 2 = take 2 (top_k demo_board 4).
Proof.
  split; [lia |]. split; [lia |].
  destruct (top_k_nested demo_board 2 4) as [H _]; [lia | lia |]. exact H.
Defined.

(** ** The menu entries *)

(** A property of the entries that holds of the new entry still holds after
    [update], on any leaderboard. *)
Lemma update_Forall (P : entry → Prop) lb name gap lb' :
  Forall P (drivers lb) → P (gap, name) →
  update lb name gap = Ok lb' → Forall P (drivers lb').
Proof.
  intros Hall Hx. unfold update.
  destruct (driver_map lb !! name) as [old |].
  - unfold list_pop. destruct (_ <? _); [| done]. cbn. intros [= <-]. cbn.
    rewrite insort_any_Permutation. constructor; [done |]. by apply Forall_delete.
  - cbn. intros [= <-]. cbn.
    rewrite insort_any_Permutation. by constructor.
Qed.

Lemma update_same_Ok lb name gap :
  sorted_inv lb → map_inv lb → driver_map lb !! name = Some gap →
  update lb name gap = Ok lb.
Proof.
  intros Hs Hm Hgap.
  destruct (update_pop lb name Hs Hm) as (ds & Hup & Hds & _).
  rewrite Hgap in Hds. destruct Hds as (l1 & l2 & Hl & ->).
  rewrite Hup. destruct Hm as [Hnd _].
  unfold sorted_inv in Hs. rewrite Hl in Hs, Hnd.
  rewrite insort_at by done. rewrite insert_id by done.
  f_equal. destruct lb as [ds dm]. cbn in *. by rewrite Hl.
Qed.

Lemma module_1_inv lb name choice gap :
  Inv lb → shell_inv lb → gap_ok gap →
  ∃ lb' o, module_1_add_driver lb name choice gap = Ok (lb', o) ∧
    Inv lb' ∧ shell_inv lb'.
Proof.
  intros HI Hsh Hgap. unfold module_1_add_driver.
  destruct (Nat.eqb_spec (py_len name) 3) as [Hlen | _]; cbn [negb];
    [| by eexists _, _].
  destruct (match driver_map lb !! name with Some _ => _ | None => _ end);
    [by eexists _, _ |].
  destruct gap as [g |]; [| by eexists _, _].
  destruct (SFltb g zero) eqn:Hneg; [by eexists _, _ |].
  destruct (update_Inv lb name g HI (Hgap g eq_refl)) as (lb' & Hup & HI').
  rewrite Hup. cbn. eexists _, _. split_and!; [done | done |].
  by apply (update_Forall _ lb name g lb').
Qed.

Lemma module_2_inv lb name gap :
  Inv lb → shell_inv lb → gap_ok gap →
  ∃ lb' o, module_2_update_lap_time lb name gap = Ok (lb', o) ∧
    Inv lb' ∧ shell_inv lb'.
Proof.
  intros HI Hsh Hgap. unfold module_2_update_lap_time.
  destruct (decide _); [by eexists _, _ |].
  destruct (driver_map lb !! name) as [old |] eqn:Hold; [| by eexists _, _].
  destruct gap as [g |]; [| by eexists _, _].
  destruct (SFltb g zero) eqn:Hneg; [by eexists _, _ |].
  destruct (update_Inv lb name g HI (Hgap g eq_refl)) as (lb' & Hup & HI').
  rewrite Hup. cbn. eexists _, _. split_and!; [done | done |].
  apply (update_Forall _ lb name g lb'); [done | | done].
  split; [| done]. apply HI in Hold.
  unfold shell_inv in Hsh. rewrite Forall_forall in Hsh.
  by destruct (Hsh _ Hold).
Qed.

Lemma update_all_inv l lb :
  Forall (λ p : string * float,
            py_len p.1 = 3 ∧ SFltb p.2 zero = false ∧ is_nan p.2 = false) l →
  Inv lb → shell_inv lb →
  ∃ lb', update_all l lb = Ok lb' ∧ Inv lb' ∧ shell_inv lb'.
Proof.
  intros Hl. revert lb. induction Hl as [| [n g] l (Hlen & Hneg & Hnan) _ IH];
    intros lb HI Hsh; cbn.
  { by exists lb. }
  destruct (update_Inv lb n g HI Hnan) as (lb1 & Hup & HI1).
  rewrite Hup. cbn. apply IH; [done |].
  by apply (update_Forall _ lb n g lb1).
Qed.

Lemma sample_literals :
  nearest_double 18481 gap_18_481 ∧ nearest_double 18332 gap_18_332 ∧
  nearest_double 20359 gap_20_359 ∧ nearest_double 20155 gap_20_155 ∧
  nearest_double 20570 gap_20_570.
Proof. repeat split; vm_compute; congruence. Qed.

Lemma sample_drivers_ok :
  Forall (λ p : string * float,
            py_len p.1 = 3 ∧ SFltb p.2 zero = false ∧ is_nan p.2 = false)
         sample_drivers.
Proof. repeat constructor. Qed.

Lemma remove_shell_inv lb name confirm :
  shell_inv lb → shell_inv (module_4_remove_driver lb name confirm).1.
Proof.
  intros Hsh. unfold module_4_remove_driver.
  destruct (decide _); [done |].
  destruct (driver_map lb !! name); [| done].
  destruct (negb _); [done |].
  destruct (find_entry _ _ _ _); [| done].
  cbn. by apply Forall_delete.
Qed.

Lemma menu_inv lb c :
  Inv lb → shell_inv lb → gap_ok (in_gap c) →
  ∃ lb' again, menu lb c = Ok (lb', again) ∧ Inv lb' ∧ shell_inv lb'.
Proof.
  intros HI Hsh Hgap. unfold menu.
  destruct (String.eqb _ "1").
  { destruct (module_1_inv lb (in_name c) (in_answer c) (in_gap c) HI Hsh Hgap)
      as (lb' & o & -> & ? & ?). cbn. by eexists _, _. }
  destruct (String.eqb _ "2").
  { destruct (module_2_inv lb (in_name c) (in_gap c) HI Hsh Hgap)
      as (lb' & o & -> & ? & ?). cbn. by eexists _, _. }
  destruct (String.eqb _ "3"); [by eexists _, _ |].
  destruct (String.eqb _ "4").
  { eexists _, _. split_and!; [done | by apply remove_Inv |].
    pose proof (remove_shell_inv lb (in_name c) (in_answer c)) as H.
    exact (H Hsh). }
  destruct (String.eqb _ "5").
  { unfold load_sample_data.
    destruct (update_all_inv _ lb sample_drivers_ok HI Hsh) as (lb' & -> & ? & ?).
    cbn. by eexists _, _. }
  destruct (String.eqb _ "6").
  { eexists _, _. split; [done |]. unfold clear_all.
    destruct (String.eqb _ _); [| done]. split; [apply init_Inv | constructor]. }
  destruct (String.eqb _ "0"); by eexists _, _.
Qed.

(** X15. Whatever is typed at the menu, as long as no gap typed is a NaN,
    [main] started on the empty leaderboard raises nothing and ends with a
    sorted list that agrees with the map, in which every driver code has
    three characters and no gap is negative. *)
Theorem main_keeps_invariants inputs :
  Forall (λ c, gap_ok (in_gap c)) inputs →
  ∃ lb, main inputs init = Ok lb ∧ Inv lb ∧ shell_inv lb.
Proof.
  intros Hin.
  assert (∀ lb, Inv lb → shell_inv lb →
            ∃ lb', main inputs lb = Ok lb' ∧ Inv lb' ∧ shell_inv lb') as H.
  { induction Hin as [| c inputs Hc _ IH]; intros lb HI Hsh; cbn.
    { by exists lb. }
    destruct (menu_inv lb c HI Hsh Hc) as (lb' & again & -> & HI' & Hsh').
    cbn. destruct again; [by apply IH | by exists lb']. }
  apply H; [apply init_Inv | constructor].
Qed.

Lemma main_keeps_invariants_witness :
  Forall (λ c, gap_ok (in_gap c))
    [mkConsole "5" "" "" None; mkConsole "1" "RUS" "" (Some gap_11_500);
     mkConsole "4" "LEC" "y" None; mkConsole "0" "" "" None] ∧
  ∃ lb, main [mkConsole "5" "" "" None; mkConsole "1" "RUS" "" (Some gap_11_500);
              mkConsole "4" "LEC" "y" None; mkConsole "0" "" "" None] init = Ok lb ∧
    Inv lb ∧ shell_inv lb.
Proof.
  assert (Forall (λ c, gap_ok (in_gap c))
    [mkConsole "5" "" "" None; mkConsole "1" "RUS" "" (Some gap_11_500);
     mkConsole "4" "LEC" "y" None; mkConsole "0" "" "" None]) as H.
  { repeat constructor; intros g; cbn; intros [= <-] || intros [=]; reflexivity. }
  split; [exact H |]. exact (main_keeps_invariants _ H).
Defined.

(** X16. The check [gap < 0] of [module_1_add_driver] lets a NaN through:
    on a leaderboard that holds no NaN, for a code of three characters that
    is not on the leaderboard, a gap that parses to NaN is added with the
    message of success, at the end of the list. *)
Theorem module_1_accepts_nan lb name choice :
  py_len name = 3 → nonan_inv lb → driver_map lb !! name = None →
  module_1_add_driver lb name choice (Some nan) =
  Ok ({| drivers := drivers lb ++ [(nan, name)];
         driver_map := <[name := nan]> (driver_map lb) |}, Added).
Proof.
  intros Hlen _ Hname. unfold module_1_add_driver, update.
  rewrite Hlen, Hname. cbn. do 3 f_equal.
  rewrite <- (app_nil_r (drivers lb)) at 1.
  rewrite insort_split; [done | | done].
  apply Forall_forall. intros e _. apply not_true_is_false.
  rewrite tuple_lt_iff, SFltb_iff, SFeqb_iff. cbn. naive_solver.
Qed.

Lemma module_1_accepts_nan_witness :
  py_len "HAM" = 3 ∧ nonan_inv demo_board ∧
  driver_map demo_board !! "HAM" = None ∧
  module_1_add_driver demo_board "HAM" "" (Some nan) =
  Ok ({| drivers := drivers demo_board ++ [(nan, "HAM")];
         driver_map := <["HAM" := nan]> (driver_map demo_board) |}, Added).
Proof.
  assert (driver_map demo_board !! "HAM" = None) as H by (vm_compute; reflexivity).
  pose proof (inv_nonan _ demo_board_Inv) as Hn.
  split; [reflexivity |]. split; [exact Hn |]. split; [exact H |].
  exact (module_1_accepts_nan demo_board "HAM" "" eq_refl Hn H).
Defined.

(** X17. [module_2_update_lap_time] with a gap that is not larger than the
    old one never reports a drop: on a leaderboard that satisfies the
    invariants, for a driver that is present and a new gap that is neither
    a NaN nor negative, it updates the driver, prints "moved UP" or
    "Position unchanged", and the set of drivers is what it was. *)
Theorem module_2_never_drops lb name old new :
  Inv lb → driver_map lb !! name = Some old →
  is_nan new = false → SFltb new zero = false → SFleb new old = true →
  ∃ lb' p,
    module_2_update_lap_time lb name (Some new) = Ok (lb', Updated (Some p)) ∧
    update lb name new = Ok lb' ∧
    (∀ o n, p ≠ Dropped o n) ∧
    dom (driver_map lb') = dom (driver_map lb).
Proof.
  intros HI Hold Hnan Hneg Hle.
  destruct (update_rank_order lb name old new HI Hold Hnan)
    as (lb' & r & r' & Hup & Hr & Hr' & Hmono & _).
  specialize (Hmono Hle).
  destruct (update_shape lb name new HI Hnan) as (lb2 & _ & _ & Hup2 & _ & _ & Hm & _).
  rewrite Hup in Hup2. injection Hup2 as <-.
  unfold module_2_update_lap_time.
  destruct (decide _) as [He | _]; [by rewrite He, lookup_empty in Hold |].
  rewrite Hold, Hneg, Hup. cbn. rewrite Hr, Hr'. unfold position_change.
  destruct (Nat.eqb_spec r r') as [-> | Hne]; cbn [negb].
  - eexists _, _. split_and!; [done | done | done |].
    rewrite Hm. apply dom_insert_lookup_L. eauto.
  - destruct (Nat.ltb_spec r' r); [| lia].
    eexists _, _. split_and!; [done | done | done |].
    rewrite Hm. apply dom_insert_lookup_L. eauto.
Qed.

Lemma module_2_never_drops_witness :
  Inv demo_board ∧
  ∃ lb' p,
    module_2_update_lap_time demo_board "VER" (Some gap_11_500)
      = Ok (lb', Updated (Some p)) ∧
    update demo_board "VER" gap_11_500 = Ok lb' ∧
    (∀ o n, p ≠ Dropped o n) ∧
    dom (driver_map lb') = dom (driver_map demo_board).
Proof.
  split; [exact demo_board_Inv |].
  apply (module_2_never_drops demo_board "VER" gap_12_252 gap_11_500).
  - exact demo_board_Inv.
  - vm_compute. reflexivity.
  - reflexivity.
  - reflexivity.
  - reflexivity.
Defined.

(** ** The sample data *)

Lemma update_all_lookup l lb :
  Forall (λ p : string * float, is_nan p.2 = false) l → NoDup l.*1 → Inv lb →
  ∃ lb', update_all l lb = Ok lb' ∧ Inv lb' ∧
    (∀ n g, (n, g) ∈ l → driver_map lb' !! n = Some g) ∧
    (∀ n, n ∉ l.*1 → driver_map lb' !! n = driver_map lb !! n).
Proof.
  intros Hl. revert lb. induction Hl as [| [n g] l Hnan _ IH]; intros lb Hnd HI; cbn.
  { exists lb. split_and!; [done | done | | done].
    intros n g Hin. by apply elem_of_nil in Hin. }
  cbn in Hnd. apply NoDup_cons in Hnd as [Hn Hnd].
  destruct (update_shape lb n g HI Hnan) as (lb1 & _ & _ & Hup & HI1 & _ & Hm1 & _).
  rewrite Hup. cbn.
  destruct (IH lb1 Hnd HI1) as (lb' & Hall & HI' & Hin' & Hout').
  exists lb'. split_and!; [done | done | |].
  - intros n' g' Hin. apply elem_of_cons in Hin as [[= -> ->] | Hin].
    + rewrite (Hout' n Hn), Hm1. apply lookup_insert_eq.
    + by apply Hin'.
  - intros n' Hn'. cbn in Hn'. apply not_elem_of_cons in Hn' as [Hne Hn'].
    rewrite (Hout' n' Hn'), Hm1. by rewrite lookup_insert_ne.
Qed.

Lemma update_all_same l lb :
  sorted_inv lb → map_inv lb →
  (∀ n g, (n, g) ∈ l → driver_map lb !! n = Some g) →
  update_all l lb = Ok lb.
Proof.
  intros Hs Hm. induction l as [| [n g] l IH]; intros Hl; cbn; [done |].
  rewrite (update_same_Ok lb n g Hs Hm) by (apply Hl; left).
  cbn. apply IH. intros n' g' Hin. apply Hl. by right.
Qed.

(** X18. On a leaderboard that satisfies the invariants, [load_sample_data]
    raises nothing, keeps the invariants, leaves each of the ten sample
    drivers with its sample gap and every other driver with the gap it had;
    and loading a second time changes nothing. *)
Theorem load_sample_data_idempotent lb :
  Inv lb →
  ∃ lb', load_sample_data lb = Ok lb' ∧ Inv lb' ∧
    (∀ n g, (n, g) ∈ sample_drivers → driver_map lb' !! n = Some g) ∧
    (∀ n, n ∉ sample_drivers.*1 → driver_map lb' !! n = driver_map lb !! n) ∧
    load_sample_data lb' = Ok lb'.
Proof.
  intros HI. unfold load_sample_data.
  destruct (update_all_lookup sample_drivers lb) as (lb' & Hall & HI' & Hin & Hout).
  - repeat constructor.
  - refine (bool_decide_unpack (NoDup sample_drivers.*1) _).
    vm_compute. exact I.
  - done.
  - exists lb'. split_and!; [done | done | done | done |].
    apply update_all_same; [apply HI' | apply HI' | done].
Qed.

Lemma load_sample_data_idempotent_witness :
  Inv demo_board ∧
  ∃ lb', load_sample_data demo_board = Ok lb' ∧
    driver_map lb' !! "TSU" = Some gap_20_570 ∧
    load_sample_data lb' = Ok lb'.
Proof.
  split; [exact demo_board_Inv |].
  destruct (load_sample_data_idempotent demo_board demo_board_Inv)
    as (lb' & Hload & _ & Hin & _ & Hagain).
  exists lb'. split; [exact Hload |]. split; [| exact Hagain].
  apply Hin. vm_compute. do 9 right. left.
Defined.

(** ** What is displayed *)

Lemma map_inv_size lb :
  map_inv lb → size (driver_map lb) = length (drivers lb).
Proof.
  intros [Hnd Hm].
  assert (NoDup ((λ e : entry, (e.2, e.1)) <$> drivers lb).*1) as Hnd'.
  { rewrite <- list_fmap_compose. exact Hnd. }
  assert (driver_map lb = list_to_map ((λ e : entry, (e.2, e.1)) <$> drivers lb))
    as ->.
  { apply map_eq. intros n. symmetry.
    destruct (driver_map lb !! n) as [g |] eqn:Hg.
    - apply elem_of_list_to_map; [done |]. apply Hm in Hg.
      by apply (list_elem_of_fmap_2 (λ e : entry, (e.2, e.1))) in Hg.
    - apply not_elem_of_list_to_map. rewrite <- list_fmap_compose.
      intros Hin. apply list_elem_of_fmap in Hin as ([g n'] & -> & Hin).
      apply Hm in Hin. cbn in *. congruence. }
  rewrite map_size_list_to_map by done. by rewrite length_fmap.
Qed.

Lemma display_imap lb :
  display lb =
  imap (λ i e, (i + 1, e.2, if i =? 0 then Leader else Plus e.1)) (drivers lb).
Proof.
  unfold display.
  assert (∀ (l : list entry) k,
    (λ '(i, (gap, name)), (i + 1, name, if i =? 0 then Leader else Plus gap))
      <$> enumerate_from k l =
    imap (λ i e, (k + i + 1, e.2, if k + i =? 0 then Leader else Plus e.1)) l) as H.
  { induction l as [| [g n] l IH]; intros k; cbn; [done |].
    rewrite Nat.add_0_r. apply (f_equal (cons _)).
    rewrite IH. apply imap_ext.
    intros i e _. unfold compose.
    by replace (k + S i) with (S k + i) by lia. }
  apply H.
Qed.

(** X19. On a leaderboard whose map agrees with its list,
    [module_3_display_leaderboard] warns exactly when the list is empty;
    otherwise it shows the first 20 entries of the list, in order, with
    the rank and the name that [display] shows for them, the first row
    labelled "Leader" whatever its gap and every other row with its gap
    followed by an [s], which [display] does not print; the total is the
    number of entries, and the rows shown plus the number announced as
    "more" add up to the total. *)
Theorem module_3_shows_display lb :
  map_inv lb →
  (module_3_display_leaderboard lb = None ↔ drivers lb = []) ∧
  display lb =
    imap (λ i e, (i + 1, e.2, if i =? 0 then Leader else Plus e.1))
         (drivers lb) ∧
  ∀ rows more total,
    module_3_display_leaderboard lb = Some (rows, more, total) →
    rows =
      imap (λ i e, (i + 1, e.2, if i =? 0 then Leader else PlusS e.1))
           (take 20 (drivers lb)) ∧
    total = length (drivers lb) ∧
    length rows + default 0 more = total.
Proof.
  intros Hm. pose proof (map_inv_size lb Hm) as Hsize.
  unfold module_3_display_leaderboard.
  destruct (decide (driver_map lb = ∅)) as [He | Hne].
  { split_and!; [| apply display_imap | done]. split; [| done]. intros _.
    rewrite He, map_size_empty in Hsize. by apply nil_length_inv. }
  split_and!; [| apply display_imap |].
  { split; [done |]. intros Hnil. exfalso. apply Hne.
    apply map_size_empty_iff. by rewrite Hsize, Hnil. }
  intros rows more total [= <- <- <-].
  assert ((λ '(rank, name, gap),
             (rank, name, if rank =? 1 then Leader else PlusS gap))
            <$> top_k lb 20 =
          imap (λ i e, (i + 1, e.2, if i =? 0 then Leader else PlusS e.1))
               (take 20 (drivers lb))) as Hrows.
  { rewrite top_k_ranked. unfold ranked, slice_to.
    change (20 <? 0)%Z with false. cbn match.
    rewrite fmap_imap.
    assert (take (Z.to_nat (20 `min` Z.of_nat (length (drivers lb))))
              (drivers lb) = take 20 (drivers lb)) as ->.
    { destruct (Z.min_spec 20 (Z.of_nat (length (drivers lb))))
        as [[_ ->] | [Hle ->]]; [done |].
      rewrite Nat2Z.id. by rewrite !take_ge by lia. }
    apply imap_ext. intros i [g n] _. cbn.
    by replace (i + 1 =? 1) with (i =? 0) by (by destruct i as [| []]). }
  rewrite Hrows. split_and!.
  - done.
  - done.
  - rewrite length_imap, length_take, Hsize.
    match goal with
    | |- context [?a <? ?b] => destruct (Nat.ltb_spec a b)
    end; cbn [default]; unfold id, entry in *; lia.
Qed.

Lemma module_3_shows_display_witness :
  map_inv demo_board ∧
  ∃ rows, module_3_display_leaderboard demo_board = Some (rows, None, 5) ∧
    length rows + default 0 None = 5.
Proof.
  pose proof demo_board_Inv as [_ Hm _].
  split; [exact Hm |].
  eexists. split; [vm_compute; reflexivity |].
  destruct (module_3_shows_display demo_board Hm) as (_ & _ & H).
  destruct (H _ None 5 ltac:(vm_compute; reflexivity)) as (_ & _ & Hsum).
  exact Hsum.
Defined.

(** ** When [update] raises, and what it does to the size *)

(** X20. [update] raises [IndexError], from [pop], exactly when the name is
    in the map and the search for its recorded entry runs to the end of the
    list; it never raises for a name that is not in the map. *)
Theorem update_raises_iff lb name gap :
  update lb name gap = Raise IndexError ↔
  ∃ old, driver_map lb !! name = Some old ∧
         bisect.bisect_left (drivers lb) (old, name) = length (drivers lb).
Proof.
  unfold update, list_pop.
  destruct (driver_map lb !! name) as [old |]; [| cbn; naive_solver].
  pose proof (bisect_left_le (drivers lb) (old, name)) as Hle.
  destruct (Nat.ltb_spec (bisect.bisect_left (drivers lb) (old, name))
                         (length (drivers lb))) as [Hlt | Hge]; cbn.
  - split; [done |]. intros (old' & [= <-] & Heq). lia.
  - split; [| done]. intros _. exists old. split; [done | lia].
Qed.

Lemma update_raises_iff_witness :
  ∃ lb,
    run [OpUpdate "B" gap_11_500; OpUpdate "A" nan; OpUpdate "C" gap_0_000;
         OpUpdate "A" gap_0_000] init = Ok lb ∧
    update lb "B" gap_12_252 = Raise IndexError.
Proof.
  eexists. split; [vm_compute; reflexivity |].
  apply update_raises_iff. exists gap_11_500. split; vm_compute; reflexivity.
Defined.

(** X21. On a sorted leaderboard whose map agrees with its list, [update]
    adds one entry for a new name and keeps the number of entries for a
    name that is present; the same holds of the keys of the map. *)
Theorem update_size lb name gap :
  sorted_inv lb → map_inv lb →
  ∃ lb', update lb name gap = Ok lb' ∧
    match driver_map lb !! name with
    | Some _ => length (drivers lb') = length (drivers lb) ∧
                size (driver_map lb') = size (driver_map lb)
    | None => length (drivers lb') = S (length (drivers lb)) ∧
              size (driver_map lb') = S (size (driver_map lb))
    end.
Proof.
  intros Hs Hm.
  destruct (update_pop lb name Hs Hm) as (ds & Hup & Hds & _).
  eexists. split; [apply Hup |]. cbn [drivers driver_map].
  destruct (driver_map lb !! name) as [old |] eqn:Hold;
    rewrite insort_any_Permutation; cbn [length].
  - destruct Hds as (l1 & l2 & -> & ->). split.
    + rewrite !length_app. cbn. lia.
    + rewrite map_size_insert_Some; [done | eauto].
  - rewrite Hds. split; [done |]. by rewrite map_size_insert_None.
Qed.

Lemma update_size_witness :
  sorted_inv demo_board ∧ map_inv demo_board ∧
  ∃ lb', update demo_board "HAM" gap_18_481 = Ok lb' ∧
    length (drivers lb') = 6 ∧ size (driver_map lb') = 6.
Proof.
  pose proof demo_board_Inv as [Hs Hm _].
  split; [exact Hs |]. split; [exact Hm |].
  destruct (update_size demo_board "HAM" gap_18_481 Hs Hm) as (lb' & Hup & H).
  exists lb'. split; [exact Hup |].
  assert (driver_map demo_board !! "HAM" = None) as Hn by (vm_compute; reflexivity).
  rewrite Hn in H. exact H.
Defined.

(** ** The loop of [main] *)

Lemma menu_again lb c lb' again :
  menu lb c = Ok (lb', again) → again = negb (String.eqb (in_choice c) "0").
Proof.
  unfold menu.
  destruct (String.eqb_spec (in_choice c) "1") as [-> | _].
  { destruct (module_1_add_driver _ _ _ _) as [[] |]; cbn; [| done]. by intros [= _ <-]. }
  destruct (String.eqb_spec (in_choice c) "2") as [-> | _].
  { destruct (module_2_update_lap_time _ _ _) as [[] |]; cbn; [| done]. by intros [= _ <-]. }
  destruct (String.eqb_spec (in_choice c) "3") as [-> | _]; [by intros [= _ <-] |].
  destruct (String.eqb_spec (in_choice c) "4") as [-> | _]; [by intros [= _ <-] |].
  destruct (String.eqb_spec (in_choice c) "5") as [-> | _].
  { destruct (load_sample_data _); cbn; [| done]. by intros [= _ <-]. }
  destruct (String.eqb_spec (in_choice c) "6") as [-> | _]; [by intros [= _ <-] |].
  destruct (String.eqb (in_choice c) "0"); by intros [= _ <-].
Qed.

(** X22. The loop of [main] handles the turns one after the other and
    stops at the first choice 0: turns without a 0 followed by more turns
    give what the later turns give on the leaderboard the earlier ones
    left, and nothing typed after a choice 0 has any effect. *)
Theorem main_turns l1 l2 c lb :
  Forall (λ c, in_choice c ≠ "0") l1 →
  (∀ lb1, main l1 lb = Ok lb1 → main (l1 ++ l2) lb = main l2 lb1) ∧
  (in_choice c = "0" → main (l1 ++ c :: l2) lb = main l1 lb).
Proof.
  intros Hl1. revert lb. induction Hl1 as [| c1 l1 Hc1 _ IH]; intros lb.
  { split.
    - by intros lb1 [= ->].
    - intros Hc. cbn. unfold menu. rewrite Hc. done. }
  cbn. destruct (menu lb c1) as [[lb' again] |] eqn:Hmenu; cbn; [| done].
  apply menu_again in Hmenu.
  apply String.eqb_neq in Hc1. rewrite Hc1 in Hmenu. subst again.
  apply IH.
Qed.

Lemma main_turns_witness :
  Forall (λ c, in_choice c ≠ "0") [mkConsole "5" "" "" None] ∧
  main ([mkConsole "5" "" "" None] ++
        mkConsole "0" "" "" None :: [mkConsole "6" "" "y" None]) init
  = main [mkConsole "5" "" "" None] init.
Proof.
  assert (Forall (λ c, in_choice c ≠ "0") [mkConsole "5" "" "" None]) as H.
  { repeat constructor. discriminate. }
  split; [exact H |].
  exact (proj2 (main_turns _ [mkConsole "6" "" "y" None]
                  (mkConsole "0" "" "" None) init H) eq_refl).
Defined.
